(** * HOCS core architecture: buffer pool, SCRAM controller, kernel driver,
      job packet envelope.

    A shallow embedding of
    - [memory/hocs_dma_allocator.cpp]   (module [Allocator]),
    - the [hocs_scram_controller] Verilog module (module [Scram]),
    - [kernel_driver/hocs_pci.c]        (module [Driver]),
    - the job packet envelope of [docs/INTERFACE_SPEC.md] (module [Codec]).

    Machine integers are [Z] with the wrap-around written out. *)

From Stdlib Require Import ZArith List Lia Bool NArith.
From coqutil Require Import Byte Word.LittleEndianList.
Import ListNotations.
Local Open Scope Z_scope.

(* ===================================================================== *)
(** ** Fixed-width arithmetic shared by the models *)
(* ===================================================================== *)

(** [size_t], [uintptr_t] and [uint64_t] on the ARM64 target. *)
Definition wrap64 (z : Z) : Z := z mod 2 ^ 64.

(** [u32] registers and the 32-bit Verilog counter. *)
Definition wrap32 (z : Z) : Z := z mod 2 ^ 32.

(** Conversion of a [size_t] to [ssize_t] (two's complement). *)
Definition to_ssize (z : Z) : Z :=
  if wrap64 z <? 2 ^ 63 then wrap64 z else wrap64 z - 2 ^ 64.

Definition in_size_t (z : Z) : Prop := 0 <= z < 2 ^ 64.

(* ===================================================================== *)
(** ** memory/hocs_dma_allocator.cpp *)
(* ===================================================================== *)

Module Allocator.

(** [#define ALIGN_UP(x, align) (((x) + (align) - 1) & ~((align) - 1))]
    evaluated in [size_t]: the [int] mask [~(align - 1)] is converted to
    [size_t] before the bitwise and. *)
Definition ALIGN_UP (x align : Z) : Z :=
  Z.land (wrap64 (x + align - 1)) (wrap64 (Z.lnot (align - 1))).

(** The fields of [class HOCSMremoryManager] the allocation path uses.
    [base_pointer] is what [mmap]/[aligned_alloc] returned. *)
Record HOCSMremoryManager := mkManager {
  base_pointer   : Z;
  total_capacity : Z;
  current_offset : Z
}.

(** Constructor: [total_capacity = pool_size_mb * 1024 * 1024],
    [current_offset.store(0)]. *)
Definition new_manager (base pool_size_mb : Z) : HOCSMremoryManager :=
  {| base_pointer   := base;
     total_capacity := wrap64 (wrap64 (pool_size_mb * 1024) * 1024);
     current_offset := 0 |}.

(** [void* allocate_tensor_buffer(size_t size)].  [None] is the
    [return nullptr] branch; [Some addr] is [return (void* )addr].
    [fetch_add] stores the advanced offset on both branches. *)
Definition allocate_tensor_buffer (m : HOCSMremoryManager) (size : Z)
  : option Z * HOCSMremoryManager :=
  let aligned_size := ALIGN_UP size 64 in
  let old_offset := current_offset m in
  let m' := {| base_pointer   := base_pointer m;
               total_capacity := total_capacity m;
               current_offset := wrap64 (old_offset + aligned_size) |} in
  if wrap64 (old_offset + aligned_size) >? total_capacity m
  then (None, m')
  else (Some (wrap64 (base_pointer m + old_offset)), m').

(** [void fast_reset()]. *)
Definition fast_reset (m : HOCSMremoryManager) : HOCSMremoryManager :=
  {| base_pointer   := base_pointer m;
     total_capacity := total_capacity m;
     current_offset := 0 |}.

(** C bridge: [create_pool(int size_mb)] and
    [alloc_tensor(void* manager, int size)]; the [int] arguments are
    converted to [size_t]. *)
Definition create_pool (base size_mb : Z) : HOCSMremoryManager :=
  new_manager base (wrap64 size_mb).

Definition alloc_tensor (m : HOCSMremoryManager) (size : Z)
  : option Z * HOCSMremoryManager :=
  allocate_tensor_buffer m (wrap64 size).

(** A sequence of calls, in the order the atomic [fetch_add]s take effect. *)
Fixpoint allocate_all (m : HOCSMremoryManager) (sizes : list Z)
  : list (option Z) * HOCSMremoryManager :=
  match sizes with
  | [] => ([], m)
  | s :: rest =>
      let (r, m1) := allocate_tensor_buffer m s in
      let (rs, m2) := allocate_all m1 rest in
      (r :: rs, m2)
  end.

(** The offset of a returned address from the pool base. *)
Definition handle_offset (m : HOCSMremoryManager) (addr : Z) : Z :=
  wrap64 (addr - base_pointer m).

(** Byte [b] lies in the range [[off, off + len)]. *)
Definition in_range (off len b : Z) : Prop := off <= b < off + len.

(** The size rounded up to the next multiple of 64, as a mathematical
    integer (no wrap-around). *)
Definition round_up_64 (size : Z) : Z := 64 * ((size + 63) / 64).

Definition sum_list (l : list Z) : Z := fold_right Z.add 0 l.

(** The [aligned_size] of each request of a sequence. *)
Definition aligned_sizes (sizes : list Z) : list Z :=
  map (fun s => ALIGN_UP s 64) sizes.

(** The running offsets a sequence of aligned sizes is placed at when the
    first one goes to [o]. *)
Fixpoint offsets_from (o : Z) (aligned : list Z) : list Z :=
  match aligned with
  | [] => []
  | a :: rest => o :: offsets_from (o + a) rest
  end.

End Allocator.

(* ===================================================================== *)
(** ** hocs_scram_controller (Verilog) *)
(* ===================================================================== *)

Module Scram.

(** The module's [parameter]s; an instantiation may override them. *)
Record params := mkParams {
  TEMP_CRITICAL_LIMIT : Z;   (* 8 bits  *)
  WATCHDOG_LIMIT      : Z    (* 32 bits *)
}.

(** [TEMP_CRITICAL_LIMIT = 8'd200], [WATCHDOG_LIMIT = 32'd300_000_000]. *)
Definition default_params : params :=
  {| TEMP_CRITICAL_LIMIT := 200; WATCHDOG_LIMIT := 300000000 |}.

Definition params_ok (p : params) : Prop :=
  0 <= TEMP_CRITICAL_LIMIT p < 2 ^ 8 /\ 0 <= WATCHDOG_LIMIT p < 2 ^ 32.

(** [localparam STATE_OK = 2'b00 .. STATE_DEAD = 2'b11]. *)
Inductive fsm_state := STATE_OK | STATE_WARNING | STATE_SCRAM | STATE_DEAD.

(** Input wires sampled at a clock edge. *)
Record inputs := mkInputs {
  rst_n            : bool;
  heartbeat_signal : bool;
  temp_sensor_raw  : Z
}.

(** The registers of the module (two internal, three outputs, the state). *)
Record regs := mkRegs {
  watchdog_counter  : Z;
  heartbeat_prev    : bool;
  current_state     : fsm_state;
  power_cut_trigger : bool;
  system_locked     : bool;
  status_leds       : Z
}.

(** What both [always] blocks load while [rst_n] is low. *)
Definition reset_regs : regs :=
  {| watchdog_counter := 0; heartbeat_prev := false;
     current_state := STATE_OK; power_cut_trigger := false;
     system_locked := false; status_leds := 1 |}.

(** First [always] block (watchdog logic), reset branch excluded:
    the next values of [watchdog_counter] and [heartbeat_prev]. *)
Definition watchdog_next (p : params) (i : inputs) (s : regs) : Z * bool :=
  if negb (Bool.eqb (heartbeat_signal i) (heartbeat_prev s)) then
    (0, heartbeat_signal i)
  else if watchdog_counter s <? WATCHDOG_LIMIT p then
    (wrap32 (watchdog_counter s + 1), heartbeat_prev s)
  else
    (watchdog_counter s, heartbeat_prev s).

(** The [STATE_OK] arm of the FSM: next [current_state]. *)
Definition ok_next (p : params) (i : inputs) (s : regs) : fsm_state :=
  if temp_sensor_raw i >? TEMP_CRITICAL_LIMIT p then STATE_SCRAM
  else if watchdog_counter s >=? WATCHDOG_LIMIT p then STATE_SCRAM
  else STATE_OK.

(** One rising clock edge.  All assignments are non-blocking, so every
    right-hand side reads the registers as they were before the edge.
    [STATE_WARNING] has no arm in the [case]: the FSM registers hold. *)
Definition tick (p : params) (i : inputs) (s : regs) : regs :=
  if negb (rst_n i) then reset_regs
  else
    let (cnt, prev) := watchdog_next p i s in
    match current_state s with
    | STATE_OK =>
        {| watchdog_counter := cnt; heartbeat_prev := prev;
           current_state := ok_next p i s;
           power_cut_trigger := power_cut_trigger s;
           system_locked := system_locked s;
           status_leds := 1 |}
    | STATE_SCRAM =>
        {| watchdog_counter := cnt; heartbeat_prev := prev;
           current_state := STATE_DEAD;
           power_cut_trigger := true;
           system_locked := true;
           status_leds := 15 |}
    | STATE_DEAD =>
        {| watchdog_counter := cnt; heartbeat_prev := prev;
           current_state := STATE_DEAD;
           power_cut_trigger := true;
           system_locked := system_locked s;
           status_leds := Z.land (Z.lnot (status_leds s)) 15 |}
    | STATE_WARNING =>
        {| watchdog_counter := cnt; heartbeat_prev := prev;
           current_state := STATE_WARNING;
           power_cut_trigger := power_cut_trigger s;
           system_locked := system_locked s;
           status_leds := status_leds s |}
    end.

(** [n] clock edges; [inp k] is what is sampled at edge number [k]
    (counting from 0). *)
Definition run (p : params) (inp : N -> inputs) (n : N) (s : regs) : regs :=
  N.peano_rect (fun _ => regs) s (fun k acc => tick p (inp k) acc) n.

(** States the hardware can be in after a reset. *)
Inductive reachable (p : params) : regs -> Prop :=
| reach_reset : reachable p reset_regs
| reach_tick  : forall i s, reachable p s -> reachable p (tick p i s).

(** The heartbeat sampled at an edge differs from the stored sample. *)
Definition heartbeat_toggled (i : inputs) (s : regs) : bool :=
  negb (Bool.eqb (heartbeat_signal i) (heartbeat_prev s)).

(** An input sequence with no reset, the heartbeat held at [h] and the
    temperature never above the critical limit. *)
Definition quiet (p : params) (h : bool) (inp : N -> inputs) : Prop :=
  forall k, rst_n (inp k) = true /\
            heartbeat_signal (inp k) = h /\
            temp_sensor_raw (inp k) <= TEMP_CRITICAL_LIMIT p.

(** The constant input: no reset, heartbeat low, sensor reading [t]. *)
Definition idle_input (t : Z) : inputs :=
  {| rst_n := true; heartbeat_signal := false; temp_sensor_raw := t |}.

End Scram.

(* ===================================================================== *)
(** ** kernel_driver/hocs_pci.c *)
(* ===================================================================== *)

Module Driver.

(** [#define REG_CONTROL 0x00], [REG_STATUS 0x04], [REG_IRQ_ACK 0x08]. *)
Definition REG_CONTROL : Z := 0x00.
Definition REG_STATUS  : Z := 0x04.
Definition REG_IRQ_ACK : Z := 0x08.

(** Register map of [docs/INTERFACE_SPEC.md], section 3. *)
Definition ICD_CONTROL : Z := 0x00.
Definition ICD_STATUS  : Z := 0x04.
Definition ICD_ERROR   : Z := 0x08.
Definition ICD_VERSION : Z := 0x0C.
Definition ICD_TEMP    : Z := 0x10.

(** The R/W column of that table: only CONTROL is writable. *)
Definition icd_writable (off : Z) : bool := off =? ICD_CONTROL.

Definition EFAULT : Z := 14.
Definition IRQ_NONE : Z := 0.
Definition IRQ_HANDLED : Z := 1.

(** Kernel services the driver calls besides MMIO. *)
Inductive kfun :=
| printk | alloc_chrdev_region | unregister_chrdev_region
| class_create | class_destroy | device_create | device_destroy
| cdev_init | cdev_add | cdev_del.

(** What a driver entry point does to the outside, in program order.
    [Iowrite32 val off] is [iowrite32(val, bar0_base + off)]. *)
Inductive event :=
| Ioread32  (off : Z)
| Iowrite32 (val off : Z)
| KCall     (f : kfun).

(** BAR0 as the driver sees it: the value [ioread32] returns per offset. *)
Definition bar0 := Z -> Z.

(** Computations that read BAR0 and log their events. *)
Definition io (A : Type) : Type := bar0 -> A * list event.

Definition ret {A} (a : A) : io A := fun _ => (a, []).

Definition bind {A B} (c : io A) (k : A -> io B) : io B :=
  fun d => let (a, t1) := c d in
           let (b, t2) := k a d in
           (b, t1 ++ t2).

Notation "x <- c ;; k" := (bind c (fun x => k))
  (at level 61, c at next level, right associativity).
Notation "c ;;; k" := (bind c (fun _ => k))
  (at level 61, right associativity).

Definition ioread32 (off : Z) : io Z :=
  fun d => (wrap32 (d off), [Ioread32 off]).

Definition iowrite32 (val off : Z) : io unit :=
  fun _ => (tt, [Iowrite32 val off]).

Definition kcall (f : kfun) : io unit := fun _ => (tt, [KCall f]).

(** Kernel memory: a byte per address. *)
Definition kmem := Z -> byte.

Definition store_bytes (m : kmem) (addr : Z) (bs : list byte) : kmem :=
  fun a =>
    if (addr <=? a) && (a <? addr + Z.of_nat (length bs))
    then nth (Z.to_nat (a - addr)) bs Byte.x00
    else m a.

Definition load_bytes (m : kmem) (addr : Z) (n : nat) : list byte :=
  map (fun k => m (addr + Z.of_nat k)) (seq 0 n).

(** [copy_from_user(to, from, n)], a kernel service inlined into its
    caller.  It first runs [check_copy_size(to, n, false)]: [to_size] is
    the size the compiler knows for the object at [to], and when
    [to_size < n] nothing is copied and [n] is returned.  Otherwise [n]
    bytes are written at [to]; the result is the number of bytes that
    could not be read from user space, and those are zero-filled.
    [from] lists the readable user bytes starting at the source
    pointer. *)
Definition copy_from_user (m : kmem) (to : Z) (to_size : Z)
    (from : list byte) (n : Z) : Z * kmem :=
  if to_size <? n then (n, m)
  else
    let cnt := Z.to_nat n in
    if (cnt <=? length from)%nat
    then (0, store_bytes m to (firstn cnt from))
    else (n - Z.of_nat (length from),
          store_bytes m to (from ++ repeat Byte.x00 (cnt - length from))).

(** [sizeof(cmd_reg)] for [u32 cmd_reg]. *)
Definition sizeof_cmd_reg : Z := 4.

(** [static int hocs_open(...)]. *)
Definition hocs_open : io Z :=
  kcall printk ;;; ret 0.

(** [static ssize_t hocs_read(...)]; [copy_ok] tells whether
    [copy_to_user] could write the four bytes.  The second component is
    what reaches the user buffer. *)
Definition hocs_read (copy_ok : bool) : io (Z * list byte) :=
  status_reg <- ioread32 REG_STATUS ;;
  if negb copy_ok then ret (- EFAULT, [])
  else kcall printk ;;; ret (4, le_split 4 status_reg).

(** [static ssize_t hocs_write(file, buf, len, offset)].  [cmd_addr] is
    where the local [cmd_reg] lives in kernel memory [m]; [buf] lists the
    readable user bytes.  Returns the result and the kernel memory after
    the call. *)
Definition hocs_write (m : kmem) (cmd_addr : Z) (buf : list byte) (len : Z)
  : io (Z * kmem) :=
  let (failed, m') := copy_from_user m cmd_addr sizeof_cmd_reg buf len in
  if negb (failed =? 0) then ret (- EFAULT, m')
  else
    let cmd_reg := le_combine (load_bytes m' cmd_addr 4) in
    iowrite32 cmd_reg REG_CONTROL ;;;
    kcall printk ;;;
    ret (to_ssize len, m').

(** [static irqreturn_t hocs_irq_handler(int irq, void *dev_id)]. *)
Definition hocs_irq_handler : io Z :=
  irq_status <- ioread32 REG_IRQ_ACK ;;
  if negb (Z.land irq_status 0x01 =? 0) then
    kcall printk ;;;
    iowrite32 0x01 REG_IRQ_ACK ;;;
    ret IRQ_HANDLED
  else ret IRQ_NONE.

(** Results of the kernel services [hocs_driver_init] tests
    (pointers: 0 is [NULL]). *)
Record kernel_env := mkEnv {
  alloc_chrdev_region_ret : Z;
  class_create_ret        : Z;
  device_create_ret       : Z;
  cdev_add_ret            : Z
}.

(** [static int __init hocs_driver_init(void)]. *)
Definition hocs_driver_init (e : kernel_env) : io Z :=
  kcall printk ;;;
  kcall alloc_chrdev_region ;;;
  if alloc_chrdev_region_ret e <? 0 then ret (-1)
  else
    kcall class_create ;;;
    if class_create_ret e =? 0 then
      kcall unregister_chrdev_region ;;; ret (-1)
    else
      kcall device_create ;;;
      if device_create_ret e =? 0 then
        kcall class_destroy ;;;
        kcall unregister_chrdev_region ;;; ret (-1)
      else
        kcall cdev_init ;;;
        kcall cdev_add ;;;
        if cdev_add_ret e =? -1 then
          kcall device_destroy ;;;
          kcall class_destroy ;;;
          kcall unregister_chrdev_region ;;; ret (-1)
        else
          kcall printk ;;; ret 0.

(** [static void __exit hocs_driver_exit(void)]. *)
Definition hocs_driver_exit : io unit :=
  kcall cdev_del ;;;
  kcall device_destroy ;;;
  kcall class_destroy ;;;
  kcall unregister_chrdev_region ;;;
  kcall printk.

(** Offsets written / read by a trace. *)
Definition written_offsets (t : list event) : list Z :=
  flat_map (fun ev => match ev with Iowrite32 _ off => [off] | _ => [] end) t.

Definition touched_offsets (t : list event) : list Z :=
  flat_map (fun ev => match ev with
                      | Iowrite32 _ off => [off]
                      | Ioread32 off => [off]
                      | KCall _ => []
                      end) t.

(** Every entry point of the driver, with its arguments. *)
Inductive entry :=
| Open
| Read  (copy_ok : bool)
| Write (m : kmem) (cmd_addr : Z) (buf : list byte) (len : Z)
| Irq
| Init  (e : kernel_env)
| Exit.

Definition trace_of (op : entry) (d : bar0) : list event :=
  match op with
  | Open => snd (hocs_open d)
  | Read ok => snd (hocs_read ok d)
  | Write m a buf len => snd (hocs_write m a buf len d)
  | Irq => snd (hocs_irq_handler d)
  | Init e => snd (hocs_driver_init e d)
  | Exit => snd (hocs_driver_exit d)
  end.

End Driver.

(* ===================================================================== *)
(** ** Job packet envelope (docs/INTERFACE_SPEC.md, section 2) *)
(* ===================================================================== *)

Module Codec.

(** [OPCODE]: [0x1]=WRITE, [0x2]=READ, [0x3]=CONFIG. *)
Inductive Opcode := WRITE | READ | CONFIG.

Definition opcode_code (o : Opcode) : Z :=
  match o with WRITE => 1 | READ => 2 | CONFIG => 3 end.

Definition opcode_of_code (w : Z) : option Opcode :=
  if w =? 1 then Some WRITE
  else if w =? 2 then Some READ
  else if w =? 3 then Some CONFIG
  else None.

(** Max payload size: 4 MB per transaction. *)
Definition MAX_PAYLOAD : Z := 4 * 1024 * 1024.

(** Modelled from the spec: the JobPacket of the data model, with the
    header words as they sit on the wire (the opcode as its 32-bit code). *)
Record JobPacket := mkPacket {
  magic       : Z;
  opcode      : Z;
  payload_len : Z;
  tile_id     : Z;
  payload     : list byte;
  crc32       : Z
}.

(** Modelled from the spec: the outcomes of [decode]. *)
Inductive decoded :=
| Packet (p : JobPacket)
| ChecksumError
| MagicMismatch
| Truncated.

(** Modelled from the spec: the CRC32 footer function, which the sources
    do not contain; the usual reflected CRC-32 (polynomial 0xEDB88320,
    initial value and final xor 0xFFFFFFFF). *)
Definition crc_step (c : Z) : Z :=
  if Z.testbit c 0 then Z.lxor (Z.shiftr c 1) 0xEDB88320 else Z.shiftr c 1.

(** Modelled from the spec: one byte fed into the running CRC. *)
Definition crc_byte (c : Z) (b : byte) : Z :=
  Nat.iter 8 crc_step (Z.lxor c (byte.unsigned b)).

(** Modelled from the spec: the CRC32 of a byte sequence. *)
Definition compute_crc32 (bs : list byte) : Z :=
  Z.lxor (fold_left crc_byte bs 0xFFFFFFFF) 0xFFFFFFFF.

(** Modelled from the spec: bytes of padding that bring [n] payload bytes
    to a 64-bit boundary. *)
Definition pad_len (n : Z) : Z := (8 - n mod 8) mod 8.

Section WithMagic.

(** [MAGIC_VAL]: the table gives [0xH0C5], which is not a number; the
    constant is left open. *)
Variable MAGIC_VAL : Z.

(** Modelled from the spec: the 16-byte header (magic, opcode,
    payload_len, tile_id), each word little-endian. *)
Definition header (op_code tid : Z) (pl : list byte) : list byte :=
  le_split 4 MAGIC_VAL ++ le_split 4 op_code
    ++ le_split 4 (Z.of_nat (length pl)) ++ le_split 4 tid.

(** Modelled from the spec: [encode(opcode, tile_id, payload) -> bytes],
    which the sources do not contain.  Order: magic, opcode, payload_len,
    tile_id, payload, crc32; little-endian; the payload is zero-padded to
    a 64-bit boundary; the CRC covers header and payload. *)
Definition encode (op : Opcode) (tid : Z) (pl : list byte) : list byte :=
  let h := header (opcode_code op) tid pl in
  h ++ pl
    ++ repeat Byte.x00 (Z.to_nat (pad_len (Z.of_nat (length pl))))
    ++ le_split 4 (compute_crc32 (h ++ pl)).

(** Modelled from the spec: [decode(bytes)], which the sources do not
    contain.  Magic first, then [payload_len] against the bytes that
    remain, then the CRC over header and payload against the footer. *)
Definition decode (bs : list byte) : decoded :=
  if (length bs <? 4)%nat then Truncated
  else if negb (le_combine (firstn 4 bs) =? wrap32 MAGIC_VAL) then MagicMismatch
  else if (length bs <? 16)%nat then Truncated
  else
    let op   := le_combine (firstn 4 (skipn 4 bs)) in
    let plen := le_combine (firstn 4 (skipn 8 bs)) in
    let tid  := le_combine (firstn 4 (skipn 12 bs)) in
    let body := skipn 16 bs in
    if Z.of_nat (length body) <? plen + pad_len plen + 4 then Truncated
    else
      let pl   := firstn (Z.to_nat plen) body in
      let foot := le_combine (firstn 4 (skipn (Z.to_nat (plen + pad_len plen)) body)) in
      if foot =? compute_crc32 (firstn 16 bs ++ pl)
      then Packet {| magic := wrap32 MAGIC_VAL; opcode := op;
                     payload_len := plen; tile_id := tid;
                     payload := pl; crc32 := foot |}
      else ChecksumError.

End WithMagic.

End Codec.

(* ===================================================================== *)
(** ** Input traces of the SCRAM controller *)
(* ===================================================================== *)

Module ScramTrace.

Import Scram.

(** The heartbeat sampled at edge [k] differs from the one sampled at the
    edge before ([h0] stands for the sample stored before edge 0). *)
Definition toggle_at (h0 : bool) (inp : N -> inputs) (k : N) : bool :=
  negb (Bool.eqb (heartbeat_signal (inp k))
                 (if (k =? 0)%N then h0
                  else heartbeat_signal (inp (N.pred k)))).

(** Every window of [L] consecutive edges contains a heartbeat toggle. *)
Definition lively (L : N) (h0 : bool) (inp : N -> inputs) : Prop :=
  forall n, (L <= n)%N ->
    exists k, (n - L <= k < n)%N /\ toggle_at h0 inp k = true.

(** The heartbeat alternates at every edge, starting high. *)
Definition alternating_input (k : N) : inputs :=
  {| rst_n := true; heartbeat_signal := N.even k; temp_sensor_raw := 0 |}.

End ScramTrace.

(* ===================================================================== *)
(** ** Kernel objects held by the driver *)
(* ===================================================================== *)

Module DriverResources.

Import Driver.

(** What [hocs_driver_init] creates and [hocs_driver_exit] destroys. *)
Inductive resource := ChrdevRegion | DevClass | DevNode | CharDev.

Definition resource_eqb (a b : resource) : bool :=
  match a, b with
  | ChrdevRegion, ChrdevRegion | DevClass, DevClass
  | DevNode, DevNode | CharDev, CharDev => true
  | _, _ => false
  end.

(** The object a call creates, by the test the driver applies to its
    result: [alloc_chrdev_region(...) < 0], [class_create(...) == NULL],
    [device_create(...) == NULL], [cdev_add(...) == -1]. *)
Definition acquires (e : kernel_env) (f : kfun) : option resource :=
  match f with
  | alloc_chrdev_region =>
      if alloc_chrdev_region_ret e <? 0 then None else Some ChrdevRegion
  | class_create =>
      if class_create_ret e =? 0 then None else Some DevClass
  | device_create =>
      if device_create_ret e =? 0 then None else Some DevNode
  | cdev_add =>
      if cdev_add_ret e =? -1 then None else Some CharDev
  | _ => None
  end.

(** The object a call destroys. *)
Definition releases (f : kfun) : option resource :=
  match f with
  | unregister_chrdev_region => Some ChrdevRegion
  | class_destroy => Some DevClass
  | device_destroy => Some DevNode
  | cdev_del => Some CharDev
  | _ => None
  end.

(** Replays a trace over the stack of held objects (newest first).
    [None]: some call destroyed an object that was not the newest one
    held. *)
Fixpoint replay (e : kernel_env) (t : list event) (held : list resource)
  : option (list resource) :=
  match t with
  | [] => Some held
  | KCall f :: t' =>
      match releases f with
      | Some r =>
          match held with
          | r' :: h => if resource_eqb r r' then replay e t' h else None
          | [] => None
          end
      | None =>
          match acquires e f with
          | Some r => replay e t' (r :: held)
          | None => replay e t' held
          end
      end
  | _ :: t' => replay e t' held
  end.

End DriverResources.

(* ===================================================================== *)
(** ** cuo_array_controller and its wrapper hocs_top (Verilog) *)
(* ===================================================================== *)

Module Cuo.

(** [localparam STATE_IDLE = 3'b000 .. STATE_DONE = 3'b100]; the state
    register has three bits, so it can also hold 5, 6 and 7. *)
Definition STATE_IDLE : Z := 0.
Definition STATE_LOAD : Z := 1.
Definition STATE_WAIT : Z := 2.
Definition STATE_READ : Z := 3.
Definition STATE_DONE : Z := 4.

(** The 8-bit [delay_counter]. *)
Definition wrap8 (z : Z) : Z := z mod 2 ^ 8.

(** Input wires sampled at a clock edge. *)
Record inputs := mkInputs {
  rst_n   : bool;
  start   : bool;
  data_in : Z;
  adc_in  : Z
}.

(** The registers.  [dac_out], [result_out] and [done] have no reset
    value. *)
Record regs := mkRegs {
  current_state : Z;
  delay_counter : Z;
  dac_out       : Z;
  result_out    : Z;
  done          : bool
}.

(** The combinational next-state block. *)
Definition next_state (cs : Z) (st : bool) (dc : Z) : Z :=
  if cs =? STATE_IDLE then (if st then STATE_LOAD else STATE_IDLE)
  else if cs =? STATE_LOAD then STATE_WAIT
  else if cs =? STATE_WAIT then (if dc >? 20 then STATE_READ else STATE_WAIT)
  else if cs =? STATE_READ then STATE_DONE
  else if cs =? STATE_DONE then STATE_IDLE
  else STATE_IDLE.

(** One rising clock edge.  The state block has a reset; the output
    block ([always @(posedge clk)]) has none and acts on the state as it
    was before the edge. *)
Definition tick (i : inputs) (s : regs) : regs :=
  let cs := current_state s in
  {| current_state :=
       if negb (rst_n i) then STATE_IDLE
       else next_state cs (start i) (delay_counter s);
     delay_counter :=
       if negb (rst_n i) then 0
       else if cs =? STATE_WAIT then wrap8 (delay_counter s + 1) else 0;
     dac_out := if cs =? STATE_LOAD then data_in i else dac_out s;
     result_out := if cs =? STATE_READ then adc_in i else result_out s;
     done :=
       if cs =? STATE_LOAD then false
       else if cs =? STATE_DONE then true
       else done s |}.

(** [n] clock edges; [inp k] is what is sampled at edge [k]. *)
Fixpoint run (inp : nat -> inputs) (n : nat) (s : regs) : regs :=
  match n with
  | O => s
  | S n' => tick (inp n') (run inp n' s)
  end.

(** States the controller can be in after a reset edge; the registers
    without reset value hold anything. *)
Inductive reachable : regs -> Prop :=
| reach_reset : forall i s, rst_n i = false -> reachable (tick i s)
| reach_tick  : forall i s, reachable s -> reachable (tick i s).

(** [hocs_top]: the wires it drives from the core.  [start] is
    [s_axis_tvalid], [data_in] is [s_axis_tdata[11:0]]. *)
Definition top_inputs (rst : bool) (s_axis_tvalid : bool)
    (s_axis_tdata adc_in_parallel : Z) : inputs :=
  {| rst_n := rst; start := s_axis_tvalid;
     data_in := s_axis_tdata mod 2 ^ 12; adc_in := adc_in_parallel |}.

(** [assign m_axis_tdata = {20'b0, core_data_out[11:0]}]. *)
Definition m_axis_tdata (s : regs) : Z := result_out s mod 2 ^ 12.

(** [.done(m_axis_tvalid)]. *)
Definition m_axis_tvalid (s : regs) : bool := done s.

End Cuo.

(* ===================================================================== *)
(** ** security/post_quantum_auth.c (polynomial helpers) *)
(* ===================================================================== *)

Module Lattice.

(** [#define POLY_DEGREE 256], [#define MODULUS 3329]. *)
Definition POLY_DEGREE : nat := 256.
Definition MODULUS : Z := 3329.

(** Storing an [int] into an [int16_t] coefficient. *)
Definition to_int16 (z : Z) : Z := (z + 2 ^ 15) mod 2 ^ 16 - 2 ^ 15.

(** 32-bit [int] arithmetic (the coefficients are promoted to [int]). *)
Definition to_int32 (z : Z) : Z := (z + 2 ^ 31) mod 2 ^ 32 - 2 ^ 31.

Definition is_int16 (z : Z) : Prop := - 2 ^ 15 <= z < 2 ^ 15.

(** [typedef struct { int16_t coeffs[POLY_DEGREE]; } Poly;] as the list
    of its coefficients. *)
Definition Poly := list Z.

Definition well_formed (p : Poly) : Prop :=
  length p = POLY_DEGREE /\ Forall is_int16 p.

(** The body of the loop of [ntt_transform]:
    [p->coeffs[i] = (p->coeffs[i] * 17) % MODULUS]; [%] truncates
    towards zero. *)
Definition ntt_coeff (c : Z) : Z :=
  to_int16 (Z.rem (to_int32 (c * 17)) MODULUS).

(** [void ntt_transform(Poly *p)]. *)
Definition ntt_transform (p : Poly) : Poly := map ntt_coeff p.

(** The body of the loop of [poly_add]:
    [r->coeffs[i] = (a->coeffs[i] + b->coeffs[i]) % MODULUS]. *)
Definition add_coeff (a b : Z) : Z :=
  to_int16 (Z.rem (to_int32 (a + b)) MODULUS).

(** [void poly_add(Poly *r, const Poly *a, const Poly *b)]: the new
    contents of [r]. *)
Fixpoint poly_add (a b : Poly) : Poly :=
  match a, b with
  | x :: a', y :: b' => add_coeff x y :: poly_add a' b'
  | _, _ => []
  end.

End Lattice.

(* ===================================================================== *)
(** ** memory/hocs_dma_allocator.cpp: hex_dump *)
(* ===================================================================== *)

Module HexDump.

Import Ascii.

Definition space : ascii := " "%char.
Definition newline : ascii := "010"%char.

(** One digit of the [X] conversion (upper case). *)
Definition hex_digit (n : nat) : ascii :=
  nth n ["0"; "1"; "2"; "3"; "4"; "5"; "6"; "7";
         "8"; "9"; "A"; "B"; "C"; "D"; "E"; "F"]%char "0"%char.

(** [printf("%02X ", p[i])]: two digits and a blank. *)
Definition print_byte (b : byte) : list ascii :=
  let v := N.to_nat (Byte.to_N b) in
  [hex_digit (v / 16); hex_digit (v mod 16); space].

(** The loop of [hex_dump], from index [i] on: after the byte at index
    [i] a line break is printed when [(i+1) % 16 == 0]. *)
Fixpoint dump_from (i : nat) (p : list byte) : list ascii :=
  match p with
  | [] => []
  | b :: rest =>
      print_byte b
        ++ (if ((i + 1) mod 16 =? 0)%nat then [newline] else [])
        ++ dump_from (i + 1) rest
  end.

(** [void hex_dump(void* ptr, size_t len)]: what is written to standard
    output, [p] being the [len] bytes at [ptr]. *)
Definition hex_dump (p : list byte) : list ascii :=
  dump_from 0 p ++ [newline].

(** The value of a hexadecimal digit, if it is one. *)
Definition digit_value (c : ascii) : option nat :=
  let n := nat_of_ascii c in
  if ((48 <=? n) && (n <=? 57))%nat then Some (n - 48)%nat
  else if ((65 <=? n) && (n <=? 70))%nat then Some (n - 55)%nat
  else None.

(** Reads a dump back: blanks and line breaks are skipped, two digits
    make a byte.  [None] on anything else. *)
Fixpoint parse_dump (fuel : nat) (s : list ascii) : option (list nat) :=
  match fuel with
  | O => None
  | S fuel' =>
      match s with
      | [] => Some []
      | c :: rest =>
          if (Ascii.eqb c space || Ascii.eqb c newline)%bool
          then parse_dump fuel' rest
          else
            match rest with
            | d :: rest' =>
                match digit_value c, digit_value d, parse_dump fuel' rest' with
                | Some hi, Some lo, Some l => Some ((16 * hi + lo)%nat :: l)
                | _, _, _ => None
                end
            | [] => None
            end
      end
  end.

End HexDump.

(* ===================================================================== *)
(** ** hocs_neon_accumulate (ARM64 assembly, hocs_vector_ops.s) *)
(* ===================================================================== *)

Module Neon.

Section WithFloat.

(** A 32-bit float lane and the [fadd] instruction on it; nothing about
    floating-point arithmetic is assumed. *)
Variable F : Type.
Variable fadd : F -> F -> F.

(** [.L_cleanup]: [x2] elements are left ([n], not zero: one [ldr],
    [ldr], [fadd s1, s1, s0], [str], pointers advanced by 4, [x2]
    decremented).  [dest] and [src] are the floats in memory from [x0]
    and from [x1] on; the result is the memory from the old [x0] on.
    Lists shorter than [n] stand for an access outside the arrays, which
    is not modelled: the memory is returned as it is. *)
Fixpoint cleanup (n : nat) (dest src : list F) : list F :=
  match n with
  | O => dest
  | S n' =>
      match dest, src with
      | d :: dr, s :: sr => fadd d s :: cleanup n' dr sr
      | _, _ => dest
      end
  end.

(** [.L_loop]: while at least four elements are left, one [ld1]/[ld1]/
    [fadd v1.4s, v1.4s, v0.4s]/[st1] round on four lanes, pointers
    advanced by 16, [x2] decremented by 4; then [.L_cleanup]. *)
Fixpoint vector_loop (n : nat) (dest src : list F) : list F :=
  match n with
  | S (S (S (S n'))) =>
      match dest, src with
      | d0 :: d1 :: d2 :: d3 :: dr, s0 :: s1 :: s2 :: s3 :: sr =>
          fadd d0 s0 :: fadd d1 s1 :: fadd d2 s2 :: fadd d3 s3
            :: vector_loop n' dr sr
      | _, _ => dest
      end
  | _ => cleanup n dest src
  end.

(** [void hocs_neon_accumulate(float* dest, const float* src, int count)]
    with [count] the signed value found in [x2]: [cmp x2, #0; ble .L_done]
    first.  The arrays do not overlap.  The result is the new contents
    of [dest]. *)
Definition hocs_neon_accumulate (dest src : list F) (count : Z) : list F :=
  if count <=? 0 then dest
  else vector_loop (Z.to_nat count) dest src.

(** Element by element: [dest[i] + src[i]]. *)
Definition add_all (dest src : list F) : list F :=
  map (fun ds => fadd (fst ds) (snd ds)) (combine dest src).

End WithFloat.

End Neon.

(* ===================================================================== *)
(** * Properties *)
(* ===================================================================== *)

Lemma wrap64_range z : 0 <= wrap64 z < 2 ^ 64.
Proof. unfold wrap64. apply Z.mod_pos_bound. lia. Qed.

Lemma wrap64_small z : 0 <= z < 2 ^ 64 -> wrap64 z = z.
Proof. intros H. unfold wrap64. apply Z.mod_small. exact H. Qed.

Lemma wrap32_range z : 0 <= wrap32 z < 2 ^ 32.
Proof. unfold wrap32. apply Z.mod_pos_bound. lia. Qed.

Lemma wrap32_small z : 0 <= z < 2 ^ 32 -> wrap32 z = z.
Proof. intros H. unfold wrap32. apply Z.mod_small. exact H. Qed.

(* --------------------------------------------------------------------- *)
(** ** Buffer pool *)
(* --------------------------------------------------------------------- *)

Section AllocatorFacts.

Import Allocator.

(** Clearing the six low bits of a [size_t] value. *)
Lemma land_mask64 v :
  0 <= v < 2 ^ 64 -> Z.land v (wrap64 (Z.lnot 63)) = 64 * (v / 64).
Proof.
  intros Hv.
  change (wrap64 (Z.lnot 63)) with (Z.ldiff (Z.ones 64) (Z.ones 6)).
  change 64 with (2 ^ 6) at 2 3.
  rewrite <- Z.shiftr_div_pow2, Z.mul_comm, <- Z.shiftl_mul_pow2 by lia.
  rewrite <- Z.ldiff_ones_r by lia.
  apply Z.bits_inj'. intros n Hn.
  rewrite Z.land_spec, !Z.ldiff_spec.
  destruct (Z.ltb_spec n 64) as [Hlt | Hge].
  - rewrite (Z.ones_spec_low 64 n) by lia. now rewrite andb_true_l.
  - assert (Z.testbit v n = false) as ->; [| reflexivity].
    destruct (Z.eq_dec v 0) as [-> | Hnz]; [apply Z.bits_0 |].
    apply Z.bits_above_log2; [lia |].
    apply Z.lt_le_trans with 64; [| exact Hge].
    apply Z.log2_lt_pow2; lia.
Qed.

(** What the macro computes, wrap-around included. *)
Lemma ALIGN_UP_64 x : ALIGN_UP x 64 = 64 * (wrap64 (x + 63) / 64).
Proof.
  unfold ALIGN_UP. replace (x + 64 - 1) with (x + 63) by lia.
  change (64 - 1) with 63.
  apply land_mask64, wrap64_range.
Qed.

Lemma ALIGN_UP_64_range x : 0 <= ALIGN_UP x 64 <= 2 ^ 64 - 64.
Proof.
  rewrite ALIGN_UP_64. pose proof (wrap64_range (x + 63)) as H.
  assert (0 <= wrap64 (x + 63) / 64 < 2 ^ 58).
  { split; [apply Z.div_pos; lia |].
    apply Z.div_lt_upper_bound; [lia |]. change (64 * 2 ^ 58) with (2 ^ 64). lia. }
  change (2 ^ 64) with (64 * 2 ^ 58). lia.
Qed.

Lemma ALIGN_UP_64_mod x : ALIGN_UP x 64 mod 64 = 0.
Proof. rewrite ALIGN_UP_64, Z.mul_comm. apply Z.mod_mul. lia. Qed.

(** Without overflow the macro is the mathematical rounding. *)
Lemma ALIGN_UP_64_round x :
  0 <= x -> x + 63 < 2 ^ 64 -> ALIGN_UP x 64 = round_up_64 x.
Proof.
  intros H0 H1. rewrite ALIGN_UP_64. unfold round_up_64.
  rewrite wrap64_small by lia. reflexivity.
Qed.

Lemma round_up_64_ge x : x <= round_up_64 x.
Proof.
  unfold round_up_64.
  pose proof (Z.div_mod (x + 63) 64 ltac:(lia)) as E.
  pose proof (Z.mod_pos_bound (x + 63) 64 ltac:(lia)). lia.
Qed.

Lemma round_up_64_pos x : 0 < x -> 64 <= round_up_64 x.
Proof.
  intros H. unfold round_up_64.
  assert (1 <= (x + 63) / 64) by (apply Z.div_le_lower_bound; lia). lia.
Qed.

Lemma handle_offset_addr m o :
  0 <= o < 2 ^ 64 ->
  handle_offset m (wrap64 (base_pointer m + o)) = o.
Proof.
  intros Ho. unfold handle_offset, wrap64.
  rewrite Zminus_mod_idemp_l.
  replace (base_pointer m + o - base_pointer m) with o by lia.
  apply Z.mod_small. exact Ho.
Qed.

Lemma sum_list_cons a l : sum_list (a :: l) = a + sum_list l.
Proof. reflexivity. Qed.

Lemma sum_list_nonneg l : Forall (fun a => 0 <= a) l -> 0 <= sum_list l.
Proof. induction 1; simpl; lia. Qed.

Lemma offsets_from_length o l : length (offsets_from o l) = length l.
Proof. revert o. induction l as [| a l IH]; intros o; simpl; [| rewrite IH]; reflexivity. Qed.

Lemma offsets_from_lower l : forall o j oj,
  Forall (fun a => 0 <= a) l ->
  nth_error (offsets_from o l) j = Some oj -> o <= oj.
Proof.
  induction l as [| a l IH]; intros o j oj Hl Hj.
  - destruct j; discriminate.
  - inversion Hl; subst. destruct j as [| j]; simpl in Hj.
    + injection Hj as <-. lia.
    + apply IH in Hj; [lia | assumption].
Qed.

Lemma offsets_from_upper l : forall o j oj aj,
  Forall (fun a => 0 <= a) l ->
  nth_error (offsets_from o l) j = Some oj ->
  nth_error l j = Some aj ->
  oj + aj <= o + sum_list l.
Proof.
  induction l as [| a l IH]; intros o j oj aj Hl Hj Ha.
  - destruct j; discriminate.
  - inversion Hl as [| ? ? Ha0 Hl']; subst. destruct j as [| j]; simpl in *.
    + injection Hj as <-. injection Ha as <-.
      pose proof (sum_list_nonneg l Hl'). lia.
    + specialize (IH _ _ _ _ Hl' Hj Ha). lia.
Qed.

(** Earlier slices end before later ones start. *)
Lemma offsets_from_sep l : forall o i j oi oj ai,
  Forall (fun a => 0 <= a) l ->
  (i < j)%nat ->
  nth_error (offsets_from o l) i = Some oi ->
  nth_error (offsets_from o l) j = Some oj ->
  nth_error l i = Some ai ->
  oi + ai <= oj.
Proof.
  induction l as [| a l IH]; intros o i j oi oj ai Hl Hij Hi Hj Ha.
  - destruct i; discriminate.
  - inversion Hl as [| ? ? Ha0 Hl']; subst.
    destruct j as [| j]; [lia |]. destruct i as [| i]; simpl in *.
    + injection Hi as <-. injection Ha as <-.
      eapply offsets_from_lower; eauto.
    + apply (IH (o + a) i j oi oj ai Hl'); [lia | exact Hi | exact Hj | exact Ha].
Qed.

Lemma offsets_from_aligned l : forall o j oj,
  o mod 64 = 0 ->
  Forall (fun a => a mod 64 = 0) l ->
  nth_error (offsets_from o l) j = Some oj -> oj mod 64 = 0.
Proof.
  induction l as [| a l IH]; intros o j oj Ho Hl Hj.
  - destruct j; discriminate.
  - inversion Hl; subst. destruct j as [| j]; simpl in Hj.
    + now injection Hj as <-.
    + eapply IH; [| eassumption | exact Hj].
      match goal with H : a mod 64 = 0 |- _ => rename H into Ha end.
      rewrite Z.add_mod by lia. rewrite Ho, Ha. reflexivity.
Qed.

Lemma aligned_sizes_nonneg sizes : Forall (fun a => 0 <= a) (aligned_sizes sizes).
Proof.
  unfold aligned_sizes. apply Forall_map, Forall_forall. intros s _.
  apply ALIGN_UP_64_range.
Qed.

Lemma aligned_sizes_mod sizes : Forall (fun a => a mod 64 = 0) (aligned_sizes sizes).
Proof.
  unfold aligned_sizes. apply Forall_map, Forall_forall. intros s _.
  apply ALIGN_UP_64_mod.
Qed.

(** While the running total stays within the capacity, every call of the
    sequence returns the base plus the running offset. *)
Lemma allocate_all_fits sizes : forall m,
  0 <= current_offset m ->
  total_capacity m < 2 ^ 64 ->
  current_offset m + sum_list (aligned_sizes sizes) <= total_capacity m ->
  allocate_all m sizes =
    (map (fun o => Some (wrap64 (base_pointer m + o)))
         (offsets_from (current_offset m) (aligned_sizes sizes)),
     {| base_pointer := base_pointer m;
        total_capacity := total_capacity m;
        current_offset := current_offset m + sum_list (aligned_sizes sizes) |}).
Proof.
  induction sizes as [| s sizes IH]; intros m H0 Hcap Hsum.
  - simpl. rewrite Z.add_0_r. destruct m; reflexivity.
  - simpl in *. unfold allocate_tensor_buffer.
    pose proof (ALIGN_UP_64_range s) as Hs.
    pose proof (sum_list_nonneg _ (aligned_sizes_nonneg sizes)) as Hrest.
    rewrite wrap64_small by lia.
    destruct (Z.gtb_spec (current_offset m + ALIGN_UP s 64) (total_capacity m)) as [Hgt | _];
      [lia |].
    rewrite IH by (simpl; lia). simpl.
    rewrite Z.add_assoc. reflexivity.
Qed.

(** Rounded sizes that fit in the pool are computed without wrap-around. *)
Lemma aligned_sizes_round sizes cap :
  cap < 2 ^ 64 ->
  Forall in_size_t sizes ->
  sum_list (map round_up_64 sizes) <= cap ->
  aligned_sizes sizes = map round_up_64 sizes.
Proof.
  intros Hcap Hs. induction Hs as [| s sizes Hs0 Hs IH]; intros Hsum; [reflexivity |].
  cbn [map] in Hsum. rewrite sum_list_cons in Hsum.
  unfold aligned_sizes in *. cbn [map]. unfold in_size_t in Hs0.
  assert (Forall (fun a => 0 <= a) (map round_up_64 sizes)) as Hnn.
  { apply Forall_map. eapply Forall_impl; [| exact Hs]. intros a Ha.
    unfold in_size_t in Ha. pose proof (round_up_64_ge a). lia. }
  apply sum_list_nonneg in Hnn.
  assert (s + 63 < 2 ^ 64) as Hfit.
  { pose proof (round_up_64_ge s) as Hge.
    assert (round_up_64 s < 2 ^ 64) as Hr by lia. unfold round_up_64 in Hr.
    clear - Hr Hs0.
    assert ((s + 63) / 64 < 2 ^ 58) as Hq
      by (apply Z.mul_lt_mono_pos_l with 64; [lia | exact Hr]).
    pose proof (Z.div_mod (s + 63) 64 ltac:(lia)) as E.
    pose proof (Z.mod_pos_bound (s + 63) 64 ltac:(lia)) as Hm.
    lia. }
  pose proof (round_up_64_ge s) as Hge.
  f_equal; [apply ALIGN_UP_64_round; lia | apply IH; lia].
Qed.

(** The handle found at position [i] of a fitting sequence. *)
Lemma fits_result_inv m sizes i a s :
  current_offset m = 0 ->
  total_capacity m < 2 ^ 64 ->
  sum_list (aligned_sizes sizes) <= total_capacity m ->
  nth_error (fst (allocate_all m sizes)) i = Some (Some a) ->
  nth_error sizes i = Some s ->
  exists o,
    nth_error (offsets_from 0 (aligned_sizes sizes)) i = Some o /\
    nth_error (aligned_sizes sizes) i = Some (ALIGN_UP s 64) /\
    handle_offset m a = o /\ 0 <= o /\
    o + ALIGN_UP s 64 <= total_capacity m.
Proof.
  intros H0 Hcap Hsum Ha Hs.
  rewrite allocate_all_fits in Ha by lia. cbn [fst] in Ha.
  rewrite H0 in Ha. rewrite nth_error_map in Ha.
  destruct (nth_error (offsets_from 0 (aligned_sizes sizes)) i) as [o |] eqn:Ho;
    [| discriminate].
  cbn in Ha. injection Ha as <-.
  assert (nth_error (aligned_sizes sizes) i = Some (ALIGN_UP s 64)) as Hal.
  { unfold aligned_sizes. rewrite nth_error_map, Hs. reflexivity. }
  pose proof (offsets_from_lower _ _ _ _ (aligned_sizes_nonneg sizes) Ho) as Hlo.
  pose proof (offsets_from_upper _ _ _ _ _ (aligned_sizes_nonneg sizes) Ho Hal) as Hup.
  pose proof (ALIGN_UP_64_range s) as Hr.
  exists o. repeat split; try assumption; try lia.
  apply handle_offset_addr. lia.
Qed.

(** C1: every sequence of allocate calls that starts at offset 0 and whose
    sizes, each rounded up to a multiple of 64, sum to at most the pool
    capacity succeeds at every call; the handles' ranges
    [[offset, offset + aligned_size)] share no byte, every offset from the
    pool base is a multiple of 64, and every range ends within the
    capacity. *)
Theorem allocate_sequence_disjoint_aligned
    (m : HOCSMremoryManager) (sizes : list Z) :
  current_offset m = 0 ->
  total_capacity m < 2 ^ 64 ->
  Forall in_size_t sizes ->
  sum_list (map round_up_64 sizes) <= total_capacity m ->
  let results := fst (allocate_all m sizes) in
  length results = length sizes /\
  (forall i, (i < length sizes)%nat ->
     exists a, nth_error results i = Some (Some a)) /\
  (forall i a s,
     nth_error results i = Some (Some a) -> nth_error sizes i = Some s ->
     handle_offset m a mod 64 = 0 /\
     ALIGN_UP s 64 = round_up_64 s /\
     handle_offset m a + ALIGN_UP s 64 <= total_capacity m) /\
  (forall i j ai aj si sj,
     i <> j ->
     nth_error results i = Some (Some ai) -> nth_error sizes i = Some si ->
     nth_error results j = Some (Some aj) -> nth_error sizes j = Some sj ->
     forall b,
       ~ (in_range (handle_offset m ai) (ALIGN_UP si 64) b /\
          in_range (handle_offset m aj) (ALIGN_UP sj 64) b)).
Proof.
  intros H0 Hcap Hsz Hsum results.
  pose proof (aligned_sizes_round sizes _ Hcap Hsz Hsum) as Hal.
  assert (sum_list (aligned_sizes sizes) <= total_capacity m) as Hfit
    by (rewrite Hal; exact Hsum).
  assert (results =
          map (fun o => Some (wrap64 (base_pointer m + o)))
              (offsets_from 0 (aligned_sizes sizes))) as Hres.
  { unfold results. rewrite allocate_all_fits by lia. now rewrite H0. }
  split; [| split; [| split]].
  - rewrite Hres, length_map, offsets_from_length.
    unfold aligned_sizes. apply length_map.
  - intros i Hi. rewrite Hres, nth_error_map.
    destruct (nth_error (offsets_from 0 (aligned_sizes sizes)) i) as [o |] eqn:Ho.
    + eexists. reflexivity.
    + apply nth_error_None in Ho.
      rewrite offsets_from_length in Ho. unfold aligned_sizes in Ho.
      rewrite length_map in Ho. lia.
  - intros i a s Ha Hs.
    destruct (fits_result_inv m sizes i a s H0 Hcap Hfit Ha Hs)
      as (o & Ho & Hsi & Hoff & Hlo & Hup).
    split; [| split].
    + rewrite Hoff.
      exact (offsets_from_aligned _ 0 i o eq_refl (aligned_sizes_mod sizes) Ho).
    + rewrite Hal in Hsi. rewrite nth_error_map, Hs in Hsi.
      cbn in Hsi. now injection Hsi.
    + lia.
  - intros i j ai aj si sj Hij Hai Hsi Haj Hsj b [[Hi1 Hi2] [Hj1 Hj2]].
    destruct (fits_result_inv m sizes i ai si H0 Hcap Hfit Hai Hsi)
      as (oi & Hoi & Hali & Hoffi & _ & _).
    destruct (fits_result_inv m sizes j aj sj H0 Hcap Hfit Haj Hsj)
      as (oj & Hoj & Halj & Hoffj & _ & _).
    rewrite Hoffi in *. rewrite Hoffj in *.
    destruct (Nat.lt_total i j) as [Hlt | [Heq | Hgt]]; [| contradiction |].
    + pose proof (offsets_from_sep _ _ _ _ _ _ _
                    (aligned_sizes_nonneg sizes) Hlt Hoi Hoj Hali). lia.
    + pose proof (offsets_from_sep _ _ _ _ _ _ _
                    (aligned_sizes_nonneg sizes) Hgt Hoj Hoi Halj). lia.
Qed.

(** A 1 MiB pool serving requests of 100, 64 and 1 bytes. *)
Lemma allocate_sequence_disjoint_aligned_witness :
  let m := create_pool 4096 1 in
  let sizes := [100; 64; 1] in
  (current_offset m = 0 /\ total_capacity m < 2 ^ 64 /\
   Forall in_size_t sizes /\
   sum_list (map round_up_64 sizes) <= total_capacity m) /\
  fst (allocate_all m sizes) = [Some 4096; Some 4224; Some 4288] /\
  forall b, ~ (in_range (handle_offset m 4096) (ALIGN_UP 100 64) b /\
               in_range (handle_offset m 4224) (ALIGN_UP 64 64) b).
Proof.
  intros m sizes.
  assert (current_offset m = 0) as H0 by reflexivity.
  assert (total_capacity m < 2 ^ 64) as Hcap by reflexivity.
  assert (Forall in_size_t sizes) as Hsz
    by (repeat constructor; discriminate).
  assert (sum_list (map round_up_64 sizes) <= total_capacity m) as Hsum
    by discriminate.
  split; [repeat split; assumption |]. split; [reflexivity |].
  destruct (allocate_sequence_disjoint_aligned m sizes H0 Hcap Hsz Hsum)
    as (_ & _ & _ & Hdis).
  apply (Hdis 0%nat 1%nat 4096 4224 100 64); [discriminate | reflexivity ..].
Defined.

(** *** Exhaustion *)

(** A failed call leaves the offset beyond the capacity: [fetch_add] has
    already stored the advanced value and nothing takes it back. *)
Lemma allocate_failure_advances m size m' :
  allocate_tensor_buffer m size = (None, m') ->
  current_offset m' = wrap64 (current_offset m + ALIGN_UP size 64) /\
  total_capacity m' = total_capacity m /\
  total_capacity m < current_offset m'.
Proof.
  unfold allocate_tensor_buffer.
  destruct (Z.gtb_spec (wrap64 (current_offset m + ALIGN_UP size 64))
                       (total_capacity m)) as [Hgt | Hle]; [| discriminate].
  intros E. injection E as <-. cbn. repeat split. lia.
Qed.

(** A successful call whose addition does not wrap stays inside the pool. *)
Lemma allocate_success_in_capacity m size a m' :
  0 <= current_offset m ->
  current_offset m + ALIGN_UP size 64 < 2 ^ 64 ->
  allocate_tensor_buffer m size = (Some a, m') ->
  current_offset m + ALIGN_UP size 64 <= total_capacity m /\
  current_offset m' = current_offset m + ALIGN_UP size 64.
Proof.
  intros H0 Hno. unfold allocate_tensor_buffer.
  pose proof (ALIGN_UP_64_range size) as Hr.
  rewrite wrap64_small by lia.
  destruct (Z.gtb_spec (current_offset m + ALIGN_UP size 64) (total_capacity m));
    [discriminate |].
  intros E. injection E as _ <-. cbn. lia.
Qed.

(** With the pool used up, a request of at least one byte is refused, as
    long as neither the rounding nor the addition wraps. *)
Lemma allocate_exhausted_fails m size :
  total_capacity m <= current_offset m ->
  0 < size -> size + 63 < 2 ^ 64 ->
  current_offset m + ALIGN_UP size 64 < 2 ^ 64 ->
  fst (allocate_tensor_buffer m size) = None.
Proof.
  intros Hfull Hpos Hs Hno. unfold allocate_tensor_buffer.
  pose proof (ALIGN_UP_64_round size ltac:(lia) Hs) as Hal.
  pose proof (round_up_64_pos size Hpos) as Hge.
  destruct (Z.gtb_spec (wrap64 (current_offset m + ALIGN_UP size 64))
                       (total_capacity m)) as [_ | Hle]; [reflexivity |].
  destruct (Z.le_gt_cases 0 (current_offset m)) as [Hnn | Hneg].
  - rewrite wrap64_small in Hle by lia. lia.
  - pose proof (wrap64_range (current_offset m + ALIGN_UP size 64)). lia.
Qed.

(** Once the offset is beyond the capacity every request is refused and
    the offset stays beyond it, as long as the addition does not wrap. *)
Lemma allocate_past_capacity_fails m size :
  0 <= total_capacity m < current_offset m ->
  current_offset m + ALIGN_UP size 64 < 2 ^ 64 ->
  fst (allocate_tensor_buffer m size) = None /\
  total_capacity m < current_offset (snd (allocate_tensor_buffer m size)).
Proof.
  intros Hpast Hno. unfold allocate_tensor_buffer.
  pose proof (ALIGN_UP_64_range size) as Hr.
  rewrite wrap64_small by lia.
  destruct (Z.gtb_spec (current_offset m + ALIGN_UP size 64) (total_capacity m));
    cbn; [split; [reflexivity | lia] | lia].
Qed.

(** The same along a whole sequence of later calls. *)
Lemma allocate_all_past_capacity sizes : forall m,
  0 <= total_capacity m < current_offset m ->
  current_offset m + sum_list (aligned_sizes sizes) < 2 ^ 64 ->
  Forall (fun r => r = None) (fst (allocate_all m sizes)).
Proof.
  induction sizes as [| s sizes IH]; intros m Hpast Hno; [constructor |].
  cbn [allocate_all]. unfold aligned_sizes in Hno. cbn [map] in Hno.
  rewrite sum_list_cons in Hno. fold (aligned_sizes sizes) in Hno.
  pose proof (sum_list_nonneg _ (aligned_sizes_nonneg sizes)) as Hnn.
  pose proof (ALIGN_UP_64_range s) as Hr.
  destruct (allocate_past_capacity_fails m s Hpast ltac:(lia)) as [Hnone Hpast'].
  assert (current_offset (snd (allocate_tensor_buffer m s))
          = current_offset m + ALIGN_UP s 64) as Hoff.
  { unfold allocate_tensor_buffer. rewrite wrap64_small by lia.
    destruct (_ >? _); reflexivity. }
  assert (total_capacity (snd (allocate_tensor_buffer m s)) = total_capacity m) as Hc.
  { unfold allocate_tensor_buffer. destruct (_ >? _); reflexivity. }
  destruct (allocate_tensor_buffer m s) as [r m1]. cbn [fst snd] in *.
  specialize (IH m1 ltac:(lia) ltac:(lia)).
  destruct (allocate_all m1 sizes) as [rs m2]. cbn [fst] in *.
  constructor; assumption.
Qed.

(** [fast_reset] makes the pool usable again. *)
Lemma allocate_after_fast_reset m size :
  0 <= ALIGN_UP size 64 <= total_capacity m ->
  fst (allocate_tensor_buffer (fast_reset m) size)
  = Some (wrap64 (base_pointer m + 0)).
Proof.
  intros H. unfold allocate_tensor_buffer, fast_reset. cbn.
  pose proof (ALIGN_UP_64_range size).
  rewrite wrap64_small by lia.
  destruct (Z.gtb_spec (ALIGN_UP size 64) (total_capacity m)); [lia | reflexivity].
Qed.

(** C5: the bound check adds in [size_t] and misses the wrap-around.
    On a 1 MiB pool, after a 64-byte buffer, [alloc_tensor(m, -64)] (the
    size becomes 2^64 - 64) passes the check: it returns [base + 64] for
    a range that ends far beyond the capacity and puts the offset back
    to 0.  Likewise, after one buffer of exactly 1 MiB has used the pool
    up, [alloc_tensor(m, -1048576)] returns the address one past the end
    of the pool instead of the null handle. *)
Theorem alloc_tensor_wraps_past_capacity :
  let base := 0x7f0000000000 in
  let m0 := create_pool base 1 in
  total_capacity m0 = 1048576 /\
  (let (r1, m1) := alloc_tensor m0 64 in
   let (r2, m2) := alloc_tensor m1 (-64) in
   r1 = Some base /\
   r2 = Some (base + 64) /\
   ALIGN_UP (wrap64 (-64)) 64 = 2 ^ 64 - 64 /\
   handle_offset m0 (base + 64) + ALIGN_UP (wrap64 (-64)) 64 > total_capacity m0 /\
   current_offset m2 = 0) /\
  (let (r1, m1) := alloc_tensor m0 1048576 in
   r1 = Some base /\
   current_offset m1 = total_capacity m1 /\
   0 < wrap64 (-1048576) /\
   fst (alloc_tensor m1 (-1048576)) = Some (base + 1048576)).
Proof. vm_compute. repeat split; congruence. Qed.

(** C8: a failed call does leave the offset beyond the capacity, but a
    later call is not bound to fail.  On a 1 MiB pool a 2 MiB request
    fails and leaves the offset at 2 MiB; then, with no [fast_reset],
    [alloc_tensor(m, -64)] fails while the smaller request
    [alloc_tensor(m, -2097152)] (2^64 - 2 MiB bytes) wraps the sum to 0
    and succeeds. *)
Theorem alloc_tensor_succeeds_after_failure :
  let base := 0x7f0000000000 in
  let m0 := create_pool base 1 in
  let (r1, m1) := alloc_tensor m0 2097152 in
  r1 = None /\
  total_capacity m1 = 1048576 /\ current_offset m1 = 2097152 /\
  0 < wrap64 (-2097152) < wrap64 (-64) /\
  fst (alloc_tensor m1 (-64)) = None /\
  fst (alloc_tensor m1 (-2097152)) = Some (base + 2097152).
Proof. vm_compute. repeat split; congruence. Qed.

End AllocatorFacts.

(* --------------------------------------------------------------------- *)
(** ** SCRAM controller *)
(* --------------------------------------------------------------------- *)

Section ScramFacts.

Import Scram.

Variable p : params.

Lemma run_0 inp s : run p inp 0 s = s.
Proof. reflexivity. Qed.

Lemma run_succ inp n s :
  run p inp (N.succ n) s = tick p (inp n) (run p inp n s).
Proof. unfold run. now rewrite N.peano_rect_succ. Qed.

Lemma run_add inp a b s :
  run p inp (a + b) s = run p (fun k => inp (a + k)%N) b (run p inp a s).
Proof.
  induction b as [| b IH] using N.peano_ind.
  - now rewrite N.add_0_r.
  - rewrite N.add_succ_r, !run_succ, IH. reflexivity.
Qed.

(** The registers after an edge, field by field. *)
Lemma tick_reset i s : rst_n i = false -> tick p i s = reset_regs.
Proof. intros H. unfold tick. now rewrite H. Qed.

Lemma tick_counter i s :
  rst_n i = true ->
  watchdog_counter (tick p i s) = fst (watchdog_next p i s).
Proof.
  intros H. unfold tick. rewrite H. cbn.
  destruct (watchdog_next p i s), (current_state s); reflexivity.
Qed.

Lemma tick_prev i s :
  rst_n i = true ->
  heartbeat_prev (tick p i s) = snd (watchdog_next p i s).
Proof.
  intros H. unfold tick. rewrite H. cbn.
  destruct (watchdog_next p i s), (current_state s); reflexivity.
Qed.

Lemma tick_state i s :
  rst_n i = true ->
  current_state (tick p i s) =
    match current_state s with
    | STATE_OK => ok_next p i s
    | STATE_WARNING => STATE_WARNING
    | STATE_SCRAM | STATE_DEAD => STATE_DEAD
    end.
Proof.
  intros H. unfold tick. rewrite H. cbn.
  destruct (watchdog_next p i s), (current_state s); reflexivity.
Qed.

Lemma tick_power_cut i s :
  rst_n i = true ->
  power_cut_trigger (tick p i s) =
    match current_state s with
    | STATE_OK | STATE_WARNING => power_cut_trigger s
    | STATE_SCRAM | STATE_DEAD => true
    end.
Proof.
  intros H. unfold tick. rewrite H. cbn.
  destruct (watchdog_next p i s), (current_state s); reflexivity.
Qed.

Hypothesis Hp : params_ok p.

(** The counter never exceeds the limit, whatever the inputs. *)
Lemma tick_counter_bound i s :
  0 <= watchdog_counter s <= WATCHDOG_LIMIT p ->
  0 <= watchdog_counter (tick p i s) <= WATCHDOG_LIMIT p.
Proof.
  intros Hc. destruct Hp as [_ Hl].
  destruct (rst_n i) eqn:Hr.
  - rewrite tick_counter by exact Hr. unfold watchdog_next.
    destruct (negb _); cbn; [lia |].
    destruct (Z.ltb_spec (watchdog_counter s) (WATCHDOG_LIMIT p)); cbn; [| lia].
    rewrite wrap32_small; lia.
  - rewrite tick_reset by exact Hr. cbn. lia.
Qed.

(** C10: in every state reachable from reset the watchdog counter is at
    most WATCHDOG_LIMIT; on an edge without a heartbeat toggle it goes up
    by one only while strictly below the limit and otherwise holds, so it
    stops at the limit and never wraps. *)
Theorem watchdog_counter_saturates s :
  reachable p s ->
  0 <= watchdog_counter s <= WATCHDOG_LIMIT p /\
  (forall i, rst_n i = true -> heartbeat_toggled i s = false ->
     watchdog_counter (tick p i s) =
       (if watchdog_counter s <? WATCHDOG_LIMIT p
        then watchdog_counter s + 1 else watchdog_counter s) /\
     watchdog_counter s <= watchdog_counter (tick p i s) <= WATCHDOG_LIMIT p).
Proof.
  intros Hreach.
  assert (0 <= watchdog_counter s <= WATCHDOG_LIMIT p) as Hinv.
  { induction Hreach as [| i s _ IH].
    - cbn. destruct Hp. lia.
    - apply tick_counter_bound, IH. }
  split; [exact Hinv |].
  intros i Hr Hq. rewrite tick_counter by exact Hr.
  unfold watchdog_next. fold (heartbeat_toggled i s). rewrite Hq.
  destruct Hp as [_ Hl].
  destruct (Z.ltb_spec (watchdog_counter s) (WATCHDOG_LIMIT p)); cbn.
  - rewrite wrap32_small by lia. lia.
  - lia.
Qed.

(** C7, as the code has it: on an edge where the sampled heartbeat differs
    from the stored sample the counter is cleared and the sample stored;
    the FSM, on that same edge, still tests the counter as it was before
    the edge, so from OK it stays in OK exactly when the temperature is
    within the limit and that earlier count was below WATCHDOG_LIMIT; on
    the edge after, the cleared counter cannot take it out of OK. *)
Theorem heartbeat_toggle_clears_counter i s :
  heartbeat_toggled i s = true ->
  watchdog_counter (tick p i s) = 0 /\
  (rst_n i = true ->
   heartbeat_prev (tick p i s) = heartbeat_signal i /\
   (current_state s = STATE_OK ->
      (current_state (tick p i s) = STATE_OK <->
       temp_sensor_raw i <= TEMP_CRITICAL_LIMIT p /\
       watchdog_counter s < WATCHDOG_LIMIT p)) /\
   (0 < WATCHDOG_LIMIT p ->
    forall i', rst_n i' = true ->
      current_state (tick p i s) = STATE_OK ->
      temp_sensor_raw i' <= TEMP_CRITICAL_LIMIT p ->
      current_state (tick p i' (tick p i s)) = STATE_OK)).
Proof.
  intros Ht.
  assert (watchdog_counter (tick p i s) = 0) as Hc.
  { destruct (rst_n i) eqn:Hr.
    - rewrite tick_counter by exact Hr. unfold watchdog_next.
      fold (heartbeat_toggled i s). now rewrite Ht.
    - now rewrite tick_reset. }
  split; [exact Hc |]. intros Hr. split; [| split].
  - rewrite tick_prev by exact Hr. unfold watchdog_next.
    fold (heartbeat_toggled i s). now rewrite Ht.
  - intros Hok. rewrite tick_state, Hok by exact Hr. unfold ok_next.
    destruct (Z.gtb_spec (temp_sensor_raw i) (TEMP_CRITICAL_LIMIT p)).
    + split; [discriminate | lia].
    + destruct (Z.geb_spec (watchdog_counter s) (WATCHDOG_LIMIT p)).
      * split; [discriminate | lia].
      * split; [lia | reflexivity].
  - intros Hl i' Hr' Hok Htemp.
    rewrite tick_state, Hok by exact Hr'. unfold ok_next. rewrite Hc.
    destruct (Z.gtb_spec (temp_sensor_raw i') (TEMP_CRITICAL_LIMIT p)); [lia |].
    destruct (Z.geb_spec 0 (WATCHDOG_LIMIT p)); [lia | reflexivity].
Qed.

(** With no toggle and no over-temperature the controller counts, in OK,
    up to the limit. *)
Lemma run_quiet_counts inp s0 n :
  quiet p (heartbeat_prev s0) inp ->
  current_state s0 = STATE_OK ->
  watchdog_counter s0 = 0 ->
  Z.of_N n <= WATCHDOG_LIMIT p ->
  watchdog_counter (run p inp n s0) = Z.of_N n /\
  heartbeat_prev (run p inp n s0) = heartbeat_prev s0 /\
  current_state (run p inp n s0) = STATE_OK /\
  power_cut_trigger (run p inp n s0) = power_cut_trigger s0.
Proof.
  intros Hq Hok Hc0. destruct Hp as [_ Hl].
  induction n as [| n IH] using N.peano_ind; intros Hn.
  - rewrite run_0. repeat split; assumption.
  - destruct (IH ltac:(lia)) as (Hc & Hprev & Hst & Hpc).
    destruct (Hq n) as (Hr & Hhb & Htemp).
    rewrite run_succ.
    assert (watchdog_next p (inp n) (run p inp n s0)
            = (Z.of_N (N.succ n), heartbeat_prev s0)) as Hw.
    { unfold watchdog_next. rewrite Hhb, Hprev, Bool.eqb_reflx. cbn [negb].
      rewrite Hc.
      destruct (Z.ltb_spec (Z.of_N n) (WATCHDOG_LIMIT p)); [| lia].
      rewrite wrap32_small by lia. f_equal. lia. }
    rewrite tick_counter, tick_prev, tick_state, tick_power_cut by exact Hr.
    rewrite Hw, Hst, Hpc. cbn [fst snd]. repeat split.
    unfold ok_next. rewrite Hc.
    destruct (Z.gtb_spec (temp_sensor_raw (inp n)) (TEMP_CRITICAL_LIMIT p)); [lia |].
    destruct (Z.geb_spec (Z.of_N n) (WATCHDOG_LIMIT p)); [lia | reflexivity].
Qed.

(** DEAD is left only by a reset, and keeps the relay cut. *)
Lemma run_dead inp s0 n :
  (forall k, rst_n (inp k) = true) ->
  current_state s0 = STATE_DEAD -> power_cut_trigger s0 = true ->
  current_state (run p inp n s0) = STATE_DEAD /\
  power_cut_trigger (run p inp n s0) = true.
Proof.
  intros Hr Hst Hpc.
  induction n as [| n IH] using N.peano_ind.
  - rewrite run_0. split; assumption.
  - destruct IH as [IHs IHp]. rewrite run_succ.
    rewrite tick_state, tick_power_cut by apply Hr.
    rewrite IHs. split; reflexivity.
Qed.

Lemma run_reachable inp n s : reachable p s -> reachable p (run p inp n s).
Proof.
  intros Hs. induction n as [| n IH] using N.peano_ind.
  - now rewrite run_0.
  - rewrite run_succ. now constructor.
Qed.

(** The edge after the counter has reached the limit takes OK to SCRAM
    and leaves the relay output as it was. *)
Lemma run_quiet_scram inp s0 :
  quiet p (heartbeat_prev s0) inp ->
  current_state s0 = STATE_OK ->
  watchdog_counter s0 = 0 ->
  current_state (run p inp (Z.to_N (WATCHDOG_LIMIT p) + 1) s0) = STATE_SCRAM /\
  power_cut_trigger (run p inp (Z.to_N (WATCHDOG_LIMIT p) + 1) s0)
    = power_cut_trigger s0.
Proof.
  intros Hq Hok Hc0. destruct Hp as [_ Hl].
  destruct (run_quiet_counts inp s0 (Z.to_N (WATCHDOG_LIMIT p)) Hq Hok Hc0)
    as (Hc & _ & Hst & Hpc); [rewrite Z2N.id; lia |].
  rewrite Z2N.id in Hc by lia.
  destruct (Hq (Z.to_N (WATCHDOG_LIMIT p))) as (Hr & _ & Htemp).
  rewrite N.add_1_r, run_succ.
  rewrite tick_state, tick_power_cut by exact Hr.
  rewrite Hst, Hpc. split; [| reflexivity].
  unfold ok_next. rewrite Hc.
  destruct (Z.gtb_spec (temp_sensor_raw (inp (Z.to_N (WATCHDOG_LIMIT p))))
                       (TEMP_CRITICAL_LIMIT p)); [lia |].
  destruct (Z.geb_spec (WATCHDOG_LIMIT p) (WATCHDOG_LIMIT p)); [reflexivity | lia].
Qed.

(** From the second edge after the limit on, the state is DEAD and the
    relay is cut. *)
Lemma run_quiet_dead inp s0 n :
  quiet p (heartbeat_prev s0) inp ->
  current_state s0 = STATE_OK ->
  watchdog_counter s0 = 0 ->
  (Z.to_N (WATCHDOG_LIMIT p) + 2 <= n)%N ->
  current_state (run p inp n s0) = STATE_DEAD /\
  power_cut_trigger (run p inp n s0) = true.
Proof.
  intros Hq Hok Hc0 Hn.
  destruct (run_quiet_scram inp s0 Hq Hok Hc0) as [Hscram _].
  set (L := Z.to_N (WATCHDOG_LIMIT p)) in *.
  replace n with ((L + 2) + (n - (L + 2)))%N by lia.
  rewrite run_add. apply run_dead.
  - intros k. apply (Hq (L + 2 + k)%N).
  - replace (L + 2)%N with (N.succ (L + 1)) by lia.
    rewrite run_succ, tick_state by apply (Hq (L + 1)%N).
    now rewrite Hscram.
  - replace (L + 2)%N with (N.succ (L + 1)) by lia.
    rewrite run_succ, tick_power_cut by apply (Hq (L + 1)%N).
    now rewrite Hscram.
Qed.

(** C2, as the code has it: from a state in OK with the counter at 0, with
    no heartbeat toggle, no reset and the temperature at or below the
    limit, the controller stays in OK for WATCHDOG_LIMIT edges while the
    counter climbs to the limit; the next edge takes it to SCRAM with
    power_cut_trigger not yet changed; the edge after that takes it to
    DEAD and asserts power_cut_trigger; from then on it stays in DEAD
    with power_cut_trigger asserted at every edge. *)
Theorem watchdog_expiry_timeline inp s0 :
  quiet p (heartbeat_prev s0) inp ->
  current_state s0 = STATE_OK ->
  watchdog_counter s0 = 0 ->
  let L := Z.to_N (WATCHDOG_LIMIT p) in
  (forall n, (n <= L)%N ->
     current_state (run p inp n s0) = STATE_OK /\
     watchdog_counter (run p inp n s0) = Z.of_N n /\
     power_cut_trigger (run p inp n s0) = power_cut_trigger s0) /\
  (current_state (run p inp (L + 1) s0) = STATE_SCRAM /\
   power_cut_trigger (run p inp (L + 1) s0) = power_cut_trigger s0) /\
  (current_state (run p inp (L + 2) s0) = STATE_DEAD /\
   power_cut_trigger (run p inp (L + 2) s0) = true) /\
  (forall n, (L + 2 <= n)%N ->
     current_state (run p inp n s0) = STATE_DEAD /\
     power_cut_trigger (run p inp n s0) = true).
Proof.
  intros Hq Hok Hc0 L. split; [| split; [| split]].
  - intros n Hn.
    destruct (run_quiet_counts inp s0 n Hq Hok Hc0) as (Hc & _ & Hst & Hpc).
    + destruct Hp as [_ Hl]. unfold L in Hn. lia.
    + repeat split; assumption.
  - apply run_quiet_scram; assumption.
  - apply run_quiet_dead; [assumption .. | lia].
  - intros n Hn. apply run_quiet_dead; assumption.
Qed.

End ScramFacts.

Section ScramInstances.

Import Scram.

Lemma default_params_ok : params_ok default_params.
Proof. unfold params_ok. cbn. lia. Qed.

Lemma idle_quiet : quiet default_params (heartbeat_prev reset_regs) (fun _ => idle_input 0).
Proof. intros k. cbn. repeat split. lia. Qed.

(** After 300,000,001 idle edges from reset the state is SCRAM and the
    relay output is still low. *)
Lemma power_cut_low_in_scram :
  let s := run default_params (fun _ => idle_input 0) 300000001 reset_regs in
  current_state s = STATE_SCRAM /\ power_cut_trigger s = false.
Proof.
  exact (run_quiet_scram default_params default_params_ok
           (fun _ => idle_input 0) reset_regs idle_quiet eq_refl eq_refl).
Qed.

(** A heartbeat toggle sampled on the edge at which the counter already
    stands at the limit clears the counter, and the controller leaves OK
    for SCRAM all the same. *)
Lemma late_heartbeat_still_scrams :
  let s := run default_params (fun _ => idle_input 0) 300000000 reset_regs in
  let i := {| rst_n := true; heartbeat_signal := true; temp_sensor_raw := 0 |} in
  reachable default_params s /\
  current_state s = STATE_OK /\
  heartbeat_toggled i s = true /\
  temp_sensor_raw i <= TEMP_CRITICAL_LIMIT default_params /\
  watchdog_counter (tick default_params i s) = 0 /\
  current_state (tick default_params i s) = STATE_SCRAM.
Proof.
  cbv zeta.
  destruct (run_quiet_counts default_params default_params_ok
              (fun _ => idle_input 0) reset_regs 300000000
              idle_quiet eq_refl eq_refl) as (Hc & Hprev & Hst & _);
    [discriminate |].
  pose proof (run_reachable default_params (fun _ => idle_input 0)
                300000000 reset_regs (reach_reset _)) as Hreach.
  change (Z.of_N 300000000) with (WATCHDOG_LIMIT default_params) in Hc.
  change (heartbeat_prev reset_regs) with false in Hprev.
  revert Hc Hprev Hst Hreach.
  generalize (run default_params (fun _ => idle_input 0) 300000000 reset_regs).
  intros s Hc Hprev Hst Hreach.
  assert (heartbeat_toggled
            {| rst_n := true; heartbeat_signal := true; temp_sensor_raw := 0 |} s
          = true) as Ht
    by (unfold heartbeat_toggled; rewrite Hprev; reflexivity).
  split; [exact Hreach |].
  split; [exact Hst |]. split; [exact Ht |]. split; [discriminate |].
  rewrite tick_counter, tick_state by reflexivity.
  unfold watchdog_next.
  fold (heartbeat_toggled
          {| rst_n := true; heartbeat_signal := true; temp_sensor_raw := 0 |} s).
  rewrite Ht, Hst.
  split; [reflexivity |].
  unfold ok_next. rewrite Hc. reflexivity.
Qed.

(** At the default parameters, one idle edge after reset. *)
Lemma watchdog_counter_saturates_witness :
  params_ok default_params /\
  reachable default_params (tick default_params (idle_input 0) reset_regs) /\
  0 <= watchdog_counter (tick default_params (idle_input 0) reset_regs)
    <= WATCHDOG_LIMIT default_params.
Proof.
  split; [exact default_params_ok |].
  split; [constructor; constructor |].
  apply (watchdog_counter_saturates default_params default_params_ok
           (tick default_params (idle_input 0) reset_regs)
           (reach_tick _ _ _ (reach_reset _))).
Defined.

(** At the default parameters, the first heartbeat after reset. *)
Lemma heartbeat_toggle_clears_counter_witness :
  let i := {| rst_n := true; heartbeat_signal := true; temp_sensor_raw := 0 |} in
  heartbeat_toggled i reset_regs = true /\
  watchdog_counter (tick default_params i reset_regs) = 0 /\
  heartbeat_prev (tick default_params i reset_regs) = true.
Proof.
  intros i. split; [reflexivity |].
  destruct (heartbeat_toggle_clears_counter default_params i reset_regs eq_refl)
    as (Hc & Hrest).
  destruct (Hrest eq_refl) as (Hprev & _).
  split; [exact Hc | exact Hprev].
Defined.

(** At the default parameters, from reset with idle inputs. *)
Lemma watchdog_expiry_timeline_witness :
  params_ok default_params /\
  quiet default_params (heartbeat_prev reset_regs) (fun _ => idle_input 0) /\
  current_state reset_regs = STATE_OK /\
  watchdog_counter reset_regs = 0 /\
  current_state (run default_params (fun _ => idle_input 0) 300000002 reset_regs)
    = STATE_DEAD /\
  power_cut_trigger (run default_params (fun _ => idle_input 0) 300000002 reset_regs)
    = true.
Proof.
  split; [exact default_params_ok |]. split; [exact idle_quiet |].
  split; [reflexivity |]. split; [reflexivity |].
  destruct (watchdog_expiry_timeline default_params default_params_ok
              (fun _ => idle_input 0) reset_regs idle_quiet eq_refl eq_refl)
    as (_ & _ & Hdead & _).
  exact Hdead.
Defined.

End ScramInstances.

(* --------------------------------------------------------------------- *)
(** ** Kernel driver *)
(* --------------------------------------------------------------------- *)

Section DriverFacts.

Import Driver.

(** What each entry point does on BAR0. *)
Lemma hocs_open_trace d : hocs_open d = (0, [KCall printk]).
Proof. reflexivity. Qed.

Lemma hocs_read_touches ok d :
  touched_offsets (snd (hocs_read ok d)) = [REG_STATUS] /\
  written_offsets (snd (hocs_read ok d)) = [].
Proof. destruct ok; split; reflexivity. Qed.

Lemma hocs_driver_exit_touches d : touched_offsets (snd (hocs_driver_exit d)) = [].
Proof. reflexivity. Qed.

Lemma hocs_driver_init_touches e d : touched_offsets (snd (hocs_driver_init e d)) = [].
Proof.
  unfold hocs_driver_init, bind, kcall, ret.
  destruct (alloc_chrdev_region_ret e <? 0); [reflexivity |].
  destruct (class_create_ret e =? 0); [reflexivity |].
  destruct (device_create_ret e =? 0); [reflexivity |].
  destruct (cdev_add_ret e =? -1); reflexivity.
Qed.

Lemma hocs_write_writes m a buf len d :
  forall off, In off (written_offsets (snd (hocs_write m a buf len d))) ->
              off = REG_CONTROL.
Proof.
  intros off. unfold hocs_write.
  destruct (copy_from_user m a sizeof_cmd_reg buf len) as [failed m'].
  destruct (negb (failed =? 0)); cbn; [tauto | intuition].
Qed.

Lemma hocs_irq_handler_run d :
  hocs_irq_handler d =
    if negb (Z.land (wrap32 (d REG_IRQ_ACK)) 1 =? 0)
    then (IRQ_HANDLED,
          [Ioread32 REG_IRQ_ACK; KCall printk; Iowrite32 1 REG_IRQ_ACK])
    else (IRQ_NONE, [Ioread32 REG_IRQ_ACK]).
Proof.
  unfold hocs_irq_handler, bind, ioread32.
  destruct (negb (Z.land (wrap32 (d REG_IRQ_ACK)) 1 =? 0)); reflexivity.
Qed.

(** Apart from the interrupt handler, the driver writes CONTROL only. *)
Lemma driver_writes_control op d :
  op <> Irq ->
  forall off, In off (written_offsets (trace_of op d)) -> off = REG_CONTROL.
Proof.
  intros Hop off. destruct op; cbn [trace_of].
  - cbn. tauto.
  - rewrite (proj2 (hocs_read_touches copy_ok d)). cbn. tauto.
  - apply hocs_write_writes.
  - contradiction.
  - pose proof (hocs_driver_init_touches e d) as Ht.
    assert (forall t, touched_offsets t = [] -> written_offsets t = []) as Hsub.
    { induction t as [| ev t IH]; [reflexivity |].
      destruct ev; cbn; try discriminate. exact IH. }
    rewrite (Hsub _ Ht). cbn. tauto.
  - cbn. tauto.
Qed.

(** C3: when bit 0 of the word at offset 0x08 is set, the interrupt
    handler writes 0x01 to offset 0x08, the ERROR register, which the
    register map gives as read-only. *)
Theorem irq_handler_writes_error_register :
  let d : bar0 := fun off => if off =? 0x08 then 0x01 else 0 in
  hocs_irq_handler d =
    (IRQ_HANDLED, [Ioread32 0x08; KCall printk; Iowrite32 0x01 0x08]) /\
  REG_IRQ_ACK = ICD_ERROR /\
  icd_writable ICD_ERROR = false /\
  written_offsets (trace_of Irq d) = [ICD_ERROR].
Proof. repeat split. Qed.

(** C4: [hocs_driver_init] touches no register, VERSION included, and its
    result depends on the kernel services alone: with all of them
    succeeding it returns 0 whatever BAR0 holds. *)
Theorem driver_init_never_reads_version e d :
  touched_offsets (snd (hocs_driver_init e d)) = [] /\
  ~ In (Ioread32 ICD_VERSION) (snd (hocs_driver_init e d)) /\
  fst (hocs_driver_init e d) =
    (if (alloc_chrdev_region_ret e <? 0) || (class_create_ret e =? 0)
        || (device_create_ret e =? 0) || (cdev_add_ret e =? -1)
     then -1 else 0).
Proof.
  split; [apply hocs_driver_init_touches |].
  unfold hocs_driver_init, bind, kcall, ret.
  destruct (alloc_chrdev_region_ret e <? 0); cbn;
    [split; [intuition discriminate | reflexivity] |].
  destruct (class_create_ret e =? 0); cbn;
    [split; [intuition discriminate | reflexivity] |].
  destruct (device_create_ret e =? 0); cbn;
    [split; [intuition discriminate | reflexivity] |].
  destruct (cdev_add_ret e =? -1); cbn;
    split; first [intuition discriminate | reflexivity].
Qed.

(** *** The write handler's copy *)

Lemma store_bytes_inside m addr bs a :
  addr <= a < addr + Z.of_nat (length bs) ->
  store_bytes m addr bs a = nth (Z.to_nat (a - addr)) bs Byte.x00.
Proof.
  intros H. unfold store_bytes.
  destruct (Z.leb_spec addr a); [| lia].
  destruct (Z.ltb_spec a (addr + Z.of_nat (length bs))); [reflexivity | lia].
Qed.

Lemma store_bytes_outside m addr bs a :
  ~ (addr <= a < addr + Z.of_nat (length bs)) ->
  store_bytes m addr bs a = m a.
Proof.
  intros H. unfold store_bytes.
  destruct (Z.leb_spec addr a); [| reflexivity].
  destruct (Z.ltb_spec a (addr + Z.of_nat (length bs))); [lia | reflexivity].
Qed.

Lemma copy_from_user_readable m to sz from n :
  0 <= n <= Z.of_nat (length from) ->
  n <= sz ->
  copy_from_user m to sz from n
  = (0, store_bytes m to (firstn (Z.to_nat n) from)) /\
  Z.of_nat (length (firstn (Z.to_nat n) from)) = n.
Proof.
  intros H Hsz. unfold copy_from_user.
  destruct (Z.ltb_spec sz n); [lia |].
  destruct (Nat.leb_spec (Z.to_nat n) (length from)); [| lia].
  split; [reflexivity |]. rewrite firstn_length_le; lia.
Qed.

Lemma load_four m a :
  load_bytes m a 4 = [m (a + 0); m (a + 1); m (a + 2); m (a + 3)].
Proof. reflexivity. Qed.







End DriverFacts.

(* --------------------------------------------------------------------- *)
(** ** Job packet envelope *)
(* --------------------------------------------------------------------- *)

Section CodecFacts.

Import Codec.

Lemma lxor_bound n a b :
  0 <= a < 2 ^ n -> 0 <= b < 2 ^ n -> 0 <= Z.lxor a b < 2 ^ n.
Proof.
  intros Ha Hb.
  assert (0 <= Z.lxor a b) as Hnn by (apply Z.lxor_nonneg; lia).
  split; [exact Hnn |].
  destruct (Z.le_gt_cases n 0) as [Hn | Hn].
  - assert (2 ^ n <= 1) as Hp.
    { destruct (Z.eq_dec n 0) as [-> | Hne]; [cbn; lia |].
      rewrite Z.pow_neg_r by lia. lia. }
    assert (a = 0) as -> by lia. assert (b = 0) as -> by lia.
    cbn. lia.
  - destruct (Z.eq_dec (Z.lxor a b) 0) as [-> | Hne]; [lia |].
    apply Z.log2_lt_pow2; [lia |].
    eapply Z.le_lt_trans; [apply Z.log2_lxor; lia |].
    apply Z.max_lub_lt.
    + destruct (Z.eq_dec a 0) as [-> | Ha0]; [cbn; lia |].
      apply Z.log2_lt_pow2; lia.
    + destruct (Z.eq_dec b 0) as [-> | Hb0]; [cbn; lia |].
      apply Z.log2_lt_pow2; lia.
Qed.

Lemma crc_step_range c : 0 <= c < 2 ^ 32 -> 0 <= crc_step c < 2 ^ 32.
Proof.
  intros Hc. unfold crc_step.
  assert (0 <= Z.shiftr c 1 < 2 ^ 31) as Hs.
  { rewrite Z.shiftr_div_pow2 by lia. change (2 ^ 1) with 2.
    split; [apply Z.div_pos; lia |].
    apply Z.div_lt_upper_bound; [lia |]. change (2 * 2 ^ 31) with (2 ^ 32). lia. }
  destruct (Z.testbit c 0).
  - apply lxor_bound; [| split; [discriminate | reflexivity]].
    change (2 ^ 32) with (2 * 2 ^ 31). lia.
  - change (2 ^ 32) with (2 * 2 ^ 31). lia.
Qed.

Lemma crc_byte_range c b : 0 <= c < 2 ^ 32 -> 0 <= crc_byte c b < 2 ^ 32.
Proof.
  intros Hc. unfold crc_byte.
  assert (0 <= Z.lxor c (byte.unsigned b) < 2 ^ 32) as H0.
  { apply lxor_bound; [exact Hc |].
    pose proof (byte.unsigned_range b) as Hb.
    change (2 ^ 32) with (2 ^ 8 * 2 ^ 24). lia. }
  cbn [Nat.iter nat_rect]. do 8 apply crc_step_range. exact H0.
Qed.

Lemma compute_crc32_range bs : 0 <= compute_crc32 bs < 2 ^ 32.
Proof.
  unfold compute_crc32.
  apply lxor_bound; [| split; [discriminate | reflexivity]].
  assert (forall l c, 0 <= c < 2 ^ 32 -> 0 <= fold_left crc_byte l c < 2 ^ 32) as H.
  { induction l as [| b l IH]; intros c Hc; [exact Hc |].
    cbn [fold_left]. apply IH, crc_byte_range, Hc. }
  apply H. split; [discriminate | reflexivity].
Qed.

Lemma pad_len_range n : 0 <= pad_len n < 8.
Proof. unfold pad_len. apply Z.mod_pos_bound. lia. Qed.

Lemma le_combine_split_32 z : le_combine (le_split 4 z) = wrap32 z.
Proof. rewrite le_combine_split. reflexivity. Qed.

(** Taking a packet apart at the fixed header offsets. *)
Lemma split_fields (a b c d rest : list byte) :
  length a = 4%nat -> length b = 4%nat -> length c = 4%nat -> length d = 4%nat ->
  let bs := a ++ b ++ c ++ d ++ rest in
  firstn 4 bs = a /\ firstn 4 (skipn 4 bs) = b /\
  firstn 4 (skipn 8 bs) = c /\ firstn 4 (skipn 12 bs) = d /\
  skipn 16 bs = rest /\ firstn 16 bs = a ++ b ++ c ++ d /\
  length bs = (16 + length rest)%nat.
Proof.
  intros Ha Hb Hc Hd.
  destruct a as [| a0 [| a1 [| a2 [| a3 [| ? ?]]]]]; try discriminate.
  destruct b as [| b0 [| b1 [| b2 [| b3 [| ? ?]]]]]; try discriminate.
  destruct c as [| c0 [| c1 [| c2 [| c3 [| ? ?]]]]]; try discriminate.
  destruct d as [| d0 [| d1 [| d2 [| d3 [| ? ?]]]]]; try discriminate.
  cbn. repeat split; reflexivity.
Qed.

Lemma firstn_exact {A} (l1 l2 : list A) n :
  length l1 = n -> firstn n (l1 ++ l2) = l1.
Proof.
  intros <-. rewrite firstn_app, Nat.sub_diag, firstn_all. cbn.
  apply app_nil_r.
Qed.

Lemma skipn_exact {A} (l1 l2 : list A) n :
  length l1 = n -> skipn n (l1 ++ l2) = l2.
Proof.
  intros <-. rewrite skipn_app, Nat.sub_diag, skipn_all. reflexivity.
Qed.

Variable MAGIC_VAL : Z.

Lemma opcode_of_code_code op : opcode_of_code (opcode_code op) = Some op.
Proof. destruct op; reflexivity. Qed.

(** Scenario B: WRITE, tile 7, 256 zero 16-bit entries give 532 bytes. *)
Lemma encode_length_scenario_B :
  length (encode MAGIC_VAL WRITE 7 (repeat Byte.x00 512)) = 532%nat.
Proof. reflexivity. Qed.

(** C6: for every opcode, every 32-bit tile id and every payload of at
    most 4 MiB, decoding the encoded packet gives back a packet with that
    opcode (as its wire code), tile id and payload. *)
Theorem decode_encode_roundtrip op tid pl :
  0 <= tid < 2 ^ 32 ->
  Z.of_nat (length pl) <= MAX_PAYLOAD ->
  decode MAGIC_VAL (encode MAGIC_VAL op tid pl) =
    Packet {| magic := wrap32 MAGIC_VAL;
              opcode := opcode_code op;
              payload_len := Z.of_nat (length pl);
              tile_id := tid;
              payload := pl;
              crc32 := compute_crc32
                         (header MAGIC_VAL (opcode_code op) tid pl ++ pl) |} /\
  opcode_of_code (opcode_code op) = Some op.
Proof.
  intros Htid Hlen. split; [| apply opcode_of_code_code].
  unfold MAX_PAYLOAD in Hlen.
  unfold encode. cbv zeta.
  set (crc := compute_crc32 (header MAGIC_VAL (opcode_code op) tid pl ++ pl)).
  set (n := Z.of_nat (length pl)) in *.
  set (pad := repeat Byte.x00 (Z.to_nat (pad_len n))).
  unfold header. fold n.
  set (a := le_split 4 MAGIC_VAL). set (b := le_split 4 (opcode_code op)).
  set (c := le_split 4 n). set (d := le_split 4 tid).
  set (rest := pl ++ pad ++ le_split 4 crc).
  replace ((a ++ b ++ c ++ d) ++ rest) with (a ++ b ++ c ++ d ++ rest)
    by (now rewrite <- !app_assoc).
  destruct (split_fields a b c d rest
              (length_le_split _ _) (length_le_split _ _)
              (length_le_split _ _) (length_le_split _ _))
    as (Ha & Hb & Hc & Hd & Hrest & Hhead & Hlength).
  pose proof (pad_len_range n) as Hpad.
  assert (length pad = Z.to_nat (pad_len n)) as Hpadl by apply repeat_length.
  assert (Z.of_nat (length rest) = n + pad_len n + 4) as Hrl.
  { unfold rest. rewrite !length_app, Hpadl, length_le_split. fold n. lia. }
  assert (le_combine c = n) as Hn.
  { unfold c. rewrite le_combine_split_32. apply wrap32_small. unfold n. lia. }
  unfold decode.
  rewrite Ha, Hb, Hc, Hd, Hrest, Hhead, Hlength, Hn.
  destruct (Nat.ltb_spec (16 + length rest) 4) as [Hbad | _]; [lia |].
  unfold a at 1. rewrite le_combine_split_32, Z.eqb_refl. cbn [negb].
  destruct (Nat.ltb_spec (16 + length rest) 16) as [Hbad | _]; [lia |].
  rewrite Hrl.
  destruct (Z.ltb_spec (n + pad_len n + 4) (n + pad_len n + 4)) as [Hbad | _]; [lia |].
  assert (firstn (Z.to_nat n) rest = pl) as Hpl.
  { unfold rest. apply firstn_exact. unfold n. lia. }
  assert (skipn (Z.to_nat (n + pad_len n)) rest = le_split 4 crc) as Hfoot.
  { unfold rest. rewrite app_assoc. apply skipn_exact.
    rewrite length_app, Hpadl. rewrite Z2Nat.inj_add by (first [apply Hpad | unfold n; lia]).
    f_equal. unfold n. apply eq_sym, Nat2Z.id. }
  rewrite Hpl, Hfoot.
  rewrite (firstn_all2 (n := 4)) by (rewrite length_le_split; lia).
  rewrite le_combine_split_32.
  assert (wrap32 crc = crc) as Hcrc
    by (apply wrap32_small, compute_crc32_range).
  rewrite Hcrc.
  assert (compute_crc32 ((a ++ b ++ c ++ d) ++ pl) = crc) as -> by reflexivity.
  rewrite Z.eqb_refl.
  unfold b, d. rewrite !le_combine_split_32.
  rewrite (wrap32_small tid) by lia.
  rewrite (wrap32_small (opcode_code op))
    by (destruct op; (split; [discriminate | reflexivity])).
  reflexivity.
Qed.

End CodecFacts.

Section CodecInstances.

Import Codec.

(** A five-byte CONFIG payload for tile 7, with the ASCII codes of
    "H0C5" standing in for the magic word. *)
Lemma decode_encode_roundtrip_witness :
  let pl := [Byte.x01; Byte.x02; Byte.x03; Byte.x04; Byte.x05] in
  (0 <= 7 < 2 ^ 32 /\ Z.of_nat (length pl) <= MAX_PAYLOAD) /\
  exists p, decode 0x48304335 (encode 0x48304335 CONFIG 7 pl) = Packet p /\
            opcode p = 3 /\ tile_id p = 7 /\ payload p = pl.
Proof.
  intros pl.
  assert (0 <= 7 < 2 ^ 32) as H1 by (split; [discriminate | reflexivity]).
  assert (Z.of_nat (length pl) <= MAX_PAYLOAD) as H2 by discriminate.
  split; [split; assumption |].
  destruct (decode_encode_roundtrip 0x48304335 CONFIG 7 pl H1 H2) as [Hdec _].
  eexists. split; [exact Hdec |]. repeat split.
Defined.

End CodecInstances.

(* ===================================================================== *)
(** * Further properties of the buffer pool *)
(* ===================================================================== *)

Section AllocatorMore.

Import Allocator.

Lemma wrap64_mod64 z : wrap64 z mod 64 = z mod 64.
Proof.
  unfold wrap64. apply Z.mod_mod_divide.
  exists (2 ^ 58). reflexivity.
Qed.

Lemma allocate_keeps_pool m size :
  base_pointer (snd (allocate_tensor_buffer m size)) = base_pointer m /\
  total_capacity (snd (allocate_tensor_buffer m size)) = total_capacity m /\
  current_offset (snd (allocate_tensor_buffer m size))
    = wrap64 (current_offset m + ALIGN_UP size 64).
Proof.
  unfold allocate_tensor_buffer. destruct (_ >? _); repeat split.
Qed.

Lemma allocate_all_keeps_pool sizes : forall m,
  base_pointer (snd (allocate_all m sizes)) = base_pointer m /\
  total_capacity (snd (allocate_all m sizes)) = total_capacity m.
Proof.
  induction sizes as [| s sizes IH]; intros m; [split; reflexivity |].
  cbn [allocate_all].
  destruct (allocate_keeps_pool m s) as (Hb & Hc & _).
  destruct (allocate_tensor_buffer m s) as [r m1]. cbn [snd] in Hb, Hc.
  destruct (IH m1) as [Hb1 Hc1].
  destruct (allocate_all m1 sizes) as [rs m2]. cbn [snd] in *.
  split; congruence.
Qed.

(** X1: when [x + 63] does not overflow, [ALIGN_UP(x, 64)] is the least
    multiple of 64 that is at least [x], and aligning twice changes
    nothing. *)
Theorem ALIGN_UP_least_multiple x :
  0 <= x -> x + 63 < 2 ^ 64 ->
  ALIGN_UP x 64 mod 64 = 0 /\
  x <= ALIGN_UP x 64 < x + 64 /\
  (forall y, y mod 64 = 0 -> x <= y -> ALIGN_UP x 64 <= y) /\
  ALIGN_UP (ALIGN_UP x 64) 64 = ALIGN_UP x 64.
Proof.
  intros H0 H1.
  pose proof (ALIGN_UP_64_round x H0 H1) as Hr.
  pose proof (ALIGN_UP_64_mod x) as Hm.
  pose proof (ALIGN_UP_64_range x) as Hrange.
  assert (x <= ALIGN_UP x 64 < x + 64) as Hb.
  { rewrite Hr. unfold round_up_64.
    pose proof (Z.div_mod (x + 63) 64 ltac:(lia)) as E.
    pose proof (Z.mod_pos_bound (x + 63) 64 ltac:(lia)). lia. }
  split; [exact Hm |]. split; [exact Hb |]. split.
  - intros y Hy Hxy.
    apply Z.mod_divide in Hy; [| lia]. destruct Hy as [k ->].
    apply Z.mod_divide in Hm; [| lia]. destruct Hm as [j Hj].
    rewrite Hj in *. nia.
  - rewrite (ALIGN_UP_64_round (ALIGN_UP x 64)) by lia.
    unfold round_up_64.
    apply Z.mod_divide in Hm; [| lia]. destruct Hm as [j Hj].
    rewrite Hj. replace (j * 64 + 63) with (63 + j * 64) by lia.
    rewrite Z.div_add by lia. change (63 / 64) with 0. lia.
Qed.

Lemma ALIGN_UP_least_multiple_witness :
  (0 <= 100 /\ 100 + 63 < 2 ^ 64) /\
  ALIGN_UP 100 64 = 128 /\ 100 <= ALIGN_UP 100 64 < 100 + 64.
Proof.
  assert (0 <= 100) as H0 by discriminate.
  assert (100 + 63 < 2 ^ 64) as H1 by reflexivity.
  split; [split; assumption |]. split; [reflexivity |].
  apply (ALIGN_UP_least_multiple 100 H0 H1).
Defined.

(** X2: a request of 0 bytes, or of more than 2^64 - 64 bytes (whose
    rounding wraps to 0), succeeds whenever the offset is within the
    capacity; it returns the address at the current offset and leaves
    the pool as it was, so the next call is handed the same address. *)
Theorem allocate_zero_length m size :
  0 <= current_offset m < 2 ^ 64 ->
  current_offset m <= total_capacity m ->
  size = 0 \/ 2 ^ 64 - 64 < size < 2 ^ 64 ->
  ALIGN_UP size 64 = 0 /\
  allocate_tensor_buffer m size
  = (Some (wrap64 (base_pointer m + current_offset m)), m).
Proof.
  intros Ho Hcap Hsize.
  assert (ALIGN_UP size 64 = 0) as Ha.
  { rewrite ALIGN_UP_64. destruct Hsize as [-> | Hs]; [reflexivity |].
    unfold wrap64.
    replace (size + 63) with ((size + 63 - 2 ^ 64) + 1 * 2 ^ 64) by lia.
    rewrite Z.mod_add by lia. rewrite Z.mod_small by lia.
    rewrite Z.div_small by lia. reflexivity. }
  split; [exact Ha |].
  unfold allocate_tensor_buffer. rewrite Ha, Z.add_0_r.
  rewrite wrap64_small by lia.
  destruct (Z.gtb_spec (current_offset m) (total_capacity m)); [lia |].
  destruct m; reflexivity.
Qed.

Lemma allocate_zero_length_witness :
  let m := create_pool 4096 1 in
  (0 <= current_offset m < 2 ^ 64 /\ current_offset m <= total_capacity m /\
   (2 ^ 64 - 1 = 0 \/ 2 ^ 64 - 64 < 2 ^ 64 - 1 < 2 ^ 64)) /\
  alloc_tensor m (-1) = (Some 4096, m).
Proof.
  intros m.
  assert (0 <= current_offset m < 2 ^ 64) as H1 by (split; [discriminate | reflexivity]).
  assert (current_offset m <= total_capacity m) as H2 by discriminate.
  assert (2 ^ 64 - 1 = 0 \/ 2 ^ 64 - 64 < 2 ^ 64 - 1 < 2 ^ 64) as H3
    by (right; split; reflexivity).
  split; [split; [exact H1 | split; [exact H2 | exact H3]] |].
  exact (proj2 (allocate_zero_length m (2 ^ 64 - 1) H1 H2 H3)).
Defined.

(** X3: a request that exactly uses up what is left succeeds (the check
    is a strict [>]), and leaves the offset equal to the capacity; the
    next request of at least one byte is then refused, provided its sum
    does not wrap. *)
Theorem allocate_exact_fit m size size' :
  0 <= current_offset m ->
  total_capacity m < 2 ^ 64 ->
  current_offset m + ALIGN_UP size 64 = total_capacity m ->
  0 < size' -> size' + 63 < 2 ^ 64 ->
  total_capacity m + ALIGN_UP size' 64 < 2 ^ 64 ->
  fst (allocate_tensor_buffer m size)
    = Some (wrap64 (base_pointer m + current_offset m)) /\
  current_offset (snd (allocate_tensor_buffer m size)) = total_capacity m /\
  fst (allocate_tensor_buffer (snd (allocate_tensor_buffer m size)) size') = None.
Proof.
  intros H0 Hcap Hfit Hpos Hs' Hno.
  pose proof (ALIGN_UP_64_range size) as Hr.
  destruct (allocate_keeps_pool m size) as (Hb & Hc & Ho).
  rewrite Hfit, wrap64_small in Ho by lia.
  split; [| split; [exact Ho |]].
  - unfold allocate_tensor_buffer. rewrite Hfit, wrap64_small by lia.
    destruct (Z.gtb_spec (total_capacity m) (total_capacity m)); [lia | reflexivity].
  - apply allocate_exhausted_fails; rewrite ?Hc, ?Ho; lia.
Qed.

Lemma allocate_exact_fit_witness :
  let m := create_pool 4096 1 in
  (0 <= current_offset m /\ total_capacity m < 2 ^ 64 /\
   current_offset m + ALIGN_UP 1048576 64 = total_capacity m /\
   0 < 1 /\ 1 + 63 < 2 ^ 64 /\
   total_capacity m + ALIGN_UP 1 64 < 2 ^ 64) /\
  fst (allocate_tensor_buffer m 1048576) = Some 4096 /\
  fst (allocate_tensor_buffer (snd (allocate_tensor_buffer m 1048576)) 1) = None.
Proof.
  intros m.
  assert (0 <= current_offset m) as H1 by discriminate.
  assert (total_capacity m < 2 ^ 64) as H2 by reflexivity.
  assert (current_offset m + ALIGN_UP 1048576 64 = total_capacity m) as H3
    by reflexivity.
  assert (0 < 1) as H4 by reflexivity.
  assert (1 + 63 < 2 ^ 64) as H5 by reflexivity.
  assert (total_capacity m + ALIGN_UP 1 64 < 2 ^ 64) as H6 by reflexivity.
  split; [repeat split; assumption |].
  destruct (allocate_exact_fit m 1048576 1 H1 H2 H3 H4 H5 H6) as (Ha & _ & Hb).
  split; [exact Ha | exact Hb].
Defined.

(** X4: once a call has failed, every call of any later sequence fails
    too, as long as the running sum of aligned sizes stays below 2^64;
    after [fast_reset] a request that fits the pool is served again, from
    the base address. *)
Theorem failed_pool_stays_failed m size m' sizes s :
  0 <= total_capacity m ->
  allocate_tensor_buffer m size = (None, m') ->
  current_offset m' + sum_list (aligned_sizes sizes) < 2 ^ 64 ->
  ALIGN_UP s 64 <= total_capacity m ->
  Forall (fun r => r = None) (fst (allocate_all m' sizes)) /\
  fst (allocate_tensor_buffer (fast_reset (snd (allocate_all m' sizes))) s)
    = Some (wrap64 (base_pointer m)).
Proof.
  intros Hcap Hfail Hno Hs.
  destruct (allocate_failure_advances m size m' Hfail) as (_ & Hc & Hpast).
  assert (base_pointer m' = base_pointer m) as Hb.
  { pose proof (allocate_keeps_pool m size) as (Hb & _). now rewrite Hfail in Hb. }
  split.
  - apply allocate_all_past_capacity; [rewrite Hc |]; lia.
  - destruct (allocate_all_keeps_pool sizes m') as [Hb' Hc'].
    pose proof (ALIGN_UP_64_range s) as Hr.
    rewrite allocate_after_fast_reset by (rewrite Hc', Hc; lia).
    rewrite Z.add_0_r, Hb', Hb. reflexivity.
Qed.

Lemma failed_pool_stays_failed_witness :
  let m := create_pool 4096 1 in
  let m' := snd (allocate_tensor_buffer m 2097152) in
  (0 <= total_capacity m /\
   allocate_tensor_buffer m 2097152 = (None, m') /\
   current_offset m' + sum_list (aligned_sizes [1; 64]) < 2 ^ 64 /\
   ALIGN_UP 100 64 <= total_capacity m) /\
  fst (allocate_all m' [1; 64]) = [None; None] /\
  fst (allocate_tensor_buffer (fast_reset (snd (allocate_all m' [1; 64]))) 100)
    = Some 4096.
Proof.
  intros m m'.
  assert (0 <= total_capacity m) as H1 by discriminate.
  assert (allocate_tensor_buffer m 2097152 = (None, m')) as H2 by reflexivity.
  assert (current_offset m' + sum_list (aligned_sizes [1; 64]) < 2 ^ 64) as H3
    by reflexivity.
  assert (ALIGN_UP 100 64 <= total_capacity m) as H4 by discriminate.
  split; [repeat split; assumption |]. split; [reflexivity |].
  exact (proj2 (failed_pool_stays_failed m 2097152 m' [1; 64] 100 H1 H2 H3 H4)).
Defined.

(** X5: [fast_reset] forgets the whole history: whatever calls were made
    before it, failed ones included, the pool is in the state a reset of
    the original pool gives, so a pool that started at offset 0 hands
    out again exactly the addresses it handed out the first time. *)
Theorem fast_reset_reissues_addresses m hist sizes :
  fast_reset (snd (allocate_all m hist)) = fast_reset m /\
  (current_offset m = 0 ->
   fst (allocate_all (fast_reset (snd (allocate_all m hist))) sizes)
   = fst (allocate_all m sizes)).
Proof.
  assert (fast_reset (snd (allocate_all m hist)) = fast_reset m) as H.
  { destruct (allocate_all_keeps_pool hist m) as [Hb Hc].
    unfold fast_reset. now rewrite Hb, Hc. }
  split; [exact H |].
  intros H0. rewrite H. unfold fast_reset. rewrite <- H0.
  destruct m; reflexivity.
Qed.

(** X6: [create_pool(size_mb)] gives a pool of [size_mb] MiB at offset 0
    for a non-negative [int]; a negative [size_mb] is converted to
    [size_t] first and gives a capacity of 2^64 - |size_mb| MiB. *)
Theorem create_pool_capacity base size_mb :
  - 2 ^ 31 <= size_mb < 2 ^ 31 ->
  current_offset (create_pool base size_mb) = 0 /\
  base_pointer (create_pool base size_mb) = base /\
  total_capacity (create_pool base size_mb)
    = (if size_mb <? 0 then 2 ^ 64 + size_mb * 1048576
       else size_mb * 1048576).
Proof.
  intros Hr. split; [reflexivity |]. split; [reflexivity |].
  change (total_capacity (create_pool base size_mb))
    with (wrap64 (wrap64 (wrap64 size_mb * 1024) * 1024)).
  unfold wrap64.
  rewrite (Z.mul_mod_idemp_l (size_mb mod 2 ^ 64 * 1024)) by lia.
  rewrite <- Z.mul_assoc.
  rewrite Z.mul_mod_idemp_l by lia. change (1024 * 1024) with 1048576.
  destruct (Z.ltb_spec size_mb 0).
  - rewrite <- (Z.mod_add (size_mb * 1048576) 1 (2 ^ 64)) by lia.
    rewrite Z.mod_small by lia. lia.
  - apply Z.mod_small. lia.
Qed.

Lemma create_pool_capacity_witness :
  (- 2 ^ 31 <= -1 < 2 ^ 31) /\
  total_capacity (create_pool 4096 (-1)) = 2 ^ 64 - 1048576.
Proof.
  assert (- 2 ^ 31 <= -1 < 2 ^ 31) as H by (split; [discriminate | reflexivity]).
  split; [exact H |].
  exact (proj2 (proj2 (create_pool_capacity 4096 (-1) H))).
Defined.

Lemma allocate_all_aligned_gen sizes : forall m,
  0 <= current_offset m < 2 ^ 64 ->
  current_offset m mod 64 = 0 ->
  (forall i a, nth_error (fst (allocate_all m sizes)) i = Some (Some a) ->
               handle_offset m a mod 64 = 0) /\
  current_offset (snd (allocate_all m sizes)) mod 64 = 0 /\
  0 <= current_offset (snd (allocate_all m sizes)) < 2 ^ 64.
Proof.
  induction sizes as [| s sizes IH]; intros m Hr Ha.
  - cbn. split; [intros [| i] a H; discriminate | split; assumption].
  - cbn [allocate_all].
    destruct (allocate_keeps_pool m s) as (Hb & _ & Ho).
    assert (fst (allocate_tensor_buffer m s) = None \/
            fst (allocate_tensor_buffer m s)
              = Some (wrap64 (base_pointer m + current_offset m))) as Hres.
    { unfold allocate_tensor_buffer. destruct (_ >? _); [left | right]; reflexivity. }
    destruct (allocate_tensor_buffer m s) as [r m1]. cbn [fst snd] in *.
    assert (current_offset m1 mod 64 = 0) as Ha1.
    { rewrite Ho, wrap64_mod64, Z.add_mod, Ha, ALIGN_UP_64_mod by lia.
      reflexivity. }
    assert (0 <= current_offset m1 < 2 ^ 64) as Hr1
      by (rewrite Ho; apply wrap64_range).
    destruct (IH m1 Hr1 Ha1) as (IHa & IHo & IHr).
    destruct (allocate_all m1 sizes) as [rs m2]. cbn [fst snd] in *.
    split; [| split; assumption].
    intros [| i] a Hi; cbn in Hi.
    + injection Hi as Hi. destruct Hres as [Hn | Hs]; [congruence |].
      rewrite Hs in Hi. injection Hi as <-.
      rewrite handle_offset_addr by exact Hr. exact Ha.
    + specialize (IHa i a Hi). unfold handle_offset in *.
      now rewrite <- Hb.
Qed.

(** X7: alignment needs no assumption on the sizes: from a 64-byte
    aligned offset, in every sequence of calls (failing ones and
    wrapped sums included) each returned address lies at a multiple of
    64 from the pool base, and the offset stays a multiple of 64. *)
Theorem allocate_all_always_aligned m sizes :
  0 <= current_offset m < 2 ^ 64 ->
  current_offset m mod 64 = 0 ->
  (forall i a, nth_error (fst (allocate_all m sizes)) i = Some (Some a) ->
               handle_offset m a mod 64 = 0) /\
  current_offset (snd (allocate_all m sizes)) mod 64 = 0.
Proof.
  intros Hr Ha.
  destruct (allocate_all_aligned_gen sizes m Hr Ha) as (H1 & H2 & _).
  split; assumption.
Qed.

Lemma allocate_all_always_aligned_witness :
  let m := create_pool 4096 1 in
  (0 <= current_offset m < 2 ^ 64 /\ current_offset m mod 64 = 0) /\
  fst (allocate_all m [2097152; 2 ^ 64 - 2097152; 7])
    = [None; Some (4096 + 2097152); Some 4096] /\
  handle_offset m (4096 + 2097152) mod 64 = 0.
Proof.
  intros m.
  assert (0 <= current_offset m < 2 ^ 64) as H1
    by (split; [discriminate | reflexivity]).
  assert (current_offset m mod 64 = 0) as H2 by reflexivity.
  split; [split; assumption |]. split; [reflexivity |].
  apply (proj1 (allocate_all_always_aligned m
                  [2097152; 2 ^ 64 - 2097152; 7] H1 H2) 1%nat).
  reflexivity.
Defined.

End AllocatorMore.

(* ===================================================================== *)
(** * Further properties of the SCRAM controller *)
(* ===================================================================== *)

Section ScramMore.

Import Scram ScramTrace.

Variable p : params.

Lemma tick_locked i s :
  rst_n i = true ->
  system_locked (tick p i s) =
    match current_state s with
    | STATE_SCRAM => true
    | _ => system_locked s
    end.
Proof.
  intros H. unfold tick. rewrite H. cbn.
  destruct (watchdog_next p i s), (current_state s); reflexivity.
Qed.

Lemma tick_leds i s :
  rst_n i = true ->
  status_leds (tick p i s) =
    match current_state s with
    | STATE_OK => 1
    | STATE_WARNING => status_leds s
    | STATE_SCRAM => 15
    | STATE_DEAD => Z.land (Z.lnot (status_leds s)) 15
    end.
Proof.
  intros H. unfold tick. rewrite H. cbn.
  destruct (watchdog_next p i s), (current_state s); reflexivity.
Qed.

Lemma lnot_nibble x : x = 0 \/ x = 15 -> Z.land (Z.lnot x) 15 = 15 - x.
Proof. intros [-> | ->]; reflexivity. Qed.

Lemma reachable_outputs s :
  reachable p s ->
  current_state s <> STATE_WARNING /\
  (power_cut_trigger s = true <-> current_state s = STATE_DEAD) /\
  (system_locked s = true <-> current_state s = STATE_DEAD) /\
  (current_state s = STATE_OK -> status_leds s = 1) /\
  (current_state s = STATE_DEAD -> status_leds s = 0 \/ status_leds s = 15).
Proof.
  induction 1 as [| i s _ IH].
  - cbn. repeat split; try discriminate; intros; reflexivity.
  - destruct IH as (Hw & Hpc & Hlk & Hok & Hdead).
    destruct (rst_n i) eqn:Hr.
    2: { rewrite tick_reset by exact Hr. cbn.
         repeat split; try discriminate; intros; reflexivity. }
    rewrite tick_state, tick_power_cut, tick_locked, tick_leds by exact Hr.
    destruct (current_state s) eqn:Hst.
    + assert (power_cut_trigger s = false) as Hp0.
      { destruct (power_cut_trigger s); [| reflexivity].
        destruct Hpc as [Hpc _]. discriminate (Hpc eq_refl). }
      assert (system_locked s = false) as Hl0.
      { destruct (system_locked s); [| reflexivity].
        destruct Hlk as [Hlk _]. discriminate (Hlk eq_refl). }
      rewrite Hp0, Hl0. unfold ok_next.
      destruct (_ >? _); [| destruct (_ >=? _)];
        repeat split; try discriminate; intros; reflexivity.
    + contradiction.
    + repeat split; try discriminate; intros; try reflexivity. now right.
    + repeat split; try discriminate; intros; try reflexivity.
      * apply Hlk. reflexivity.
      * rewrite lnot_nibble by (apply Hdead; reflexivity).
        destruct (Hdead eq_refl) as [-> | ->]; [right | left]; reflexivity.
Qed.

(** X8: in every state reachable from reset the FSM is never in WARNING,
    the relay output and the lock flag are set exactly in DEAD, the LEDs
    show green (0001) in OK, and in DEAD they are all on or all off and
    flip at every clock edge. *)
Theorem scram_outputs_follow_state s :
  reachable p s ->
  current_state s <> STATE_WARNING /\
  (power_cut_trigger s = true <-> current_state s = STATE_DEAD) /\
  (system_locked s = true <-> current_state s = STATE_DEAD) /\
  (current_state s = STATE_OK -> status_leds s = 1) /\
  (current_state s = STATE_DEAD ->
     (status_leds s = 0 \/ status_leds s = 15) /\
     forall i, rst_n i = true -> status_leds (tick p i s) = 15 - status_leds s).
Proof.
  intros Hreach.
  destruct (reachable_outputs s Hreach) as (Hw & Hpc & Hlk & Hok & Hdead).
  repeat split; try assumption; try (apply Hpc); try (apply Hlk).
  - apply Hdead. assumption.
  - intros i Hr. rewrite tick_leds by exact Hr.
    match goal with H : current_state s = STATE_DEAD |- _ => rewrite H end.
    apply lnot_nibble, Hdead. assumption.
Qed.

(** From SCRAM or DEAD, with no reset, the state is DEAD and the relay
    cut after every further edge, whatever the other inputs. *)
Lemma run_from_scram_or_dead inp s n :
  (forall k, rst_n (inp k) = true) ->
  current_state s = STATE_SCRAM \/ current_state s = STATE_DEAD ->
  (1 <= n)%N ->
  current_state (run p inp n s) = STATE_DEAD /\
  power_cut_trigger (run p inp n s) = true.
Proof.
  intros Hr Hst Hn.
  assert (forall m, current_state (run p inp (N.succ m) s) = STATE_DEAD /\
                    power_cut_trigger (run p inp (N.succ m) s) = true) as H.
  { induction m as [| m IH] using N.peano_ind.
    - rewrite run_succ, run_0, tick_state, tick_power_cut by apply Hr.
      destruct Hst as [-> | ->]; split; reflexivity.
    - destruct IH as [IHs IHp].
      rewrite run_succ, tick_state, tick_power_cut by apply Hr.
      rewrite IHs. split; reflexivity. }
  replace n with (N.succ (N.pred n)) by lia. apply H.
Qed.

(** X9: a single sample above the critical temperature while in OK takes
    the FSM to SCRAM at that edge, whatever the heartbeat and the counter
    are; after any further edge it is in DEAD with the relay cut, even if
    the temperature has dropped again. *)
Theorem over_temperature_latches i s inp n :
  rst_n i = true ->
  current_state s = STATE_OK ->
  temp_sensor_raw i > TEMP_CRITICAL_LIMIT p ->
  (forall k, rst_n (inp k) = true) ->
  (1 <= n)%N ->
  current_state (tick p i s) = STATE_SCRAM /\
  power_cut_trigger (tick p i s) = power_cut_trigger s /\
  current_state (run p inp n (tick p i s)) = STATE_DEAD /\
  power_cut_trigger (run p inp n (tick p i s)) = true.
Proof.
  intros Hr Hok Ht Hrs Hn.
  assert (current_state (tick p i s) = STATE_SCRAM) as Hs.
  { rewrite tick_state, Hok by exact Hr. unfold ok_next.
    destruct (Z.gtb_spec (temp_sensor_raw i) (TEMP_CRITICAL_LIMIT p));
      [reflexivity | lia]. }
  split; [exact Hs |]. split.
  - rewrite tick_power_cut, Hok by exact Hr. reflexivity.
  - apply run_from_scram_or_dead; [exact Hrs | now left | exact Hn].
Qed.

(** X10: SCRAM and DEAD cannot be left by anything but a reset: with
    [rst_n] high the state is DEAD and the relay cut after every further
    edge, whatever the heartbeat does and whatever the temperature is; an
    edge with [rst_n] low brings back the reset state (OK, relay on). *)
Theorem scram_is_irreversible inp s n i :
  current_state s = STATE_SCRAM \/ current_state s = STATE_DEAD ->
  ((forall k, rst_n (inp k) = true) -> (1 <= n)%N ->
   current_state (run p inp n s) = STATE_DEAD /\
   power_cut_trigger (run p inp n s) = true) /\
  (rst_n i = false ->
   current_state (tick p i s) = STATE_OK /\
   power_cut_trigger (tick p i s) = false /\
   watchdog_counter (tick p i s) = 0).
Proof.
  intros Hst. split.
  - intros Hr Hn. apply run_from_scram_or_dead; assumption.
  - intros Hr. rewrite tick_reset by exact Hr. repeat split.
Qed.

(** After an edge without reset the stored sample is the heartbeat
    sampled at that edge. *)
Lemma run_prev_tracks inp s0 n :
  (forall k, rst_n (inp k) = true) ->
  heartbeat_prev (run p inp (N.succ n) s0) = heartbeat_signal (inp n).
Proof.
  intros Hr. rewrite run_succ, tick_prev by apply Hr. unfold watchdog_next.
  destruct (Bool.eqb (heartbeat_signal (inp n)) (heartbeat_prev (run p inp n s0)))
    eqn:E; cbn [negb].
  - apply Bool.eqb_prop in E. destruct (_ <? _); cbn; congruence.
  - reflexivity.
Qed.

Lemma toggled_is_toggle_at inp s0 n :
  (forall k, rst_n (inp k) = true) ->
  heartbeat_toggled (inp n) (run p inp n s0)
  = toggle_at (heartbeat_prev s0) inp n.
Proof.
  intros Hr. unfold heartbeat_toggled, toggle_at.
  destruct (N.eqb_spec n 0) as [-> | Hn]; [now rewrite run_0 |].
  replace n with (N.succ (N.pred n)) at 2 by lia.
  now rewrite run_prev_tracks.
Qed.

Hypothesis Hp : params_ok p.

Lemma run_counter_range inp s0 n :
  watchdog_counter s0 = 0 ->
  0 <= watchdog_counter (run p inp n s0) <= WATCHDOG_LIMIT p.
Proof.
  intros H0. induction n as [| n IH] using N.peano_ind.
  - rewrite run_0, H0. destruct Hp. lia.
  - rewrite run_succ. apply tick_counter_bound; assumption.
Qed.

Lemma tick_counter_le i s :
  0 <= watchdog_counter s <= WATCHDOG_LIMIT p ->
  watchdog_counter (tick p i s) <= watchdog_counter s + 1.
Proof.
  intros Hc. destruct Hp as [_ Hl].
  destruct (rst_n i) eqn:Hr.
  - rewrite tick_counter by exact Hr. unfold watchdog_next.
    destruct (negb _); cbn; [lia |].
    destruct (Z.ltb_spec (watchdog_counter s) (WATCHDOG_LIMIT p)); cbn; [| lia].
    rewrite wrap32_small; lia.
  - rewrite tick_reset by exact Hr. cbn. lia.
Qed.

Lemma counter_from_start inp s0 n :
  watchdog_counter s0 = 0 ->
  watchdog_counter (run p inp n s0) <= Z.of_N n.
Proof.
  intros H0. induction n as [| n IH] using N.peano_ind.
  - rewrite run_0. lia.
  - rewrite run_succ.
    pose proof (tick_counter_le (inp n) _ (run_counter_range inp s0 n H0)). lia.
Qed.

Lemma counter_since_toggle inp s0 k d :
  (forall j, rst_n (inp j) = true) ->
  watchdog_counter s0 = 0 ->
  toggle_at (heartbeat_prev s0) inp k = true ->
  watchdog_counter (run p inp (N.succ k + d) s0) <= Z.of_N d.
Proof.
  intros Hr H0 Ht. induction d as [| d IH] using N.peano_ind.
  - rewrite N.add_0_r, run_succ, tick_counter by apply Hr.
    unfold watchdog_next. fold (heartbeat_toggled (inp k) (run p inp k s0)).
    rewrite toggled_is_toggle_at, Ht by exact Hr. cbn. lia.
  - rewrite N.add_succ_r, run_succ.
    pose proof (tick_counter_le (inp (N.succ k + d)%N) _
                  (run_counter_range inp s0 (N.succ k + d)%N H0)). lia.
Qed.

(** X11: as long as every window of WATCHDOG_LIMIT consecutive edges
    contains a heartbeat toggle and the temperature stays at or below
    the limit, the controller started in OK with a cleared counter stays
    in OK for ever: the counter stays below the limit and the relay
    output is never touched. *)
Theorem heartbeat_in_time_keeps_ok inp s0 :
  (forall k, rst_n (inp k) = true /\
             temp_sensor_raw (inp k) <= TEMP_CRITICAL_LIMIT p) ->
  current_state s0 = STATE_OK ->
  watchdog_counter s0 = 0 ->
  lively (Z.to_N (WATCHDOG_LIMIT p)) (heartbeat_prev s0) inp ->
  forall n,
    current_state (run p inp n s0) = STATE_OK /\
    power_cut_trigger (run p inp n s0) = power_cut_trigger s0 /\
    watchdog_counter (run p inp n s0) < WATCHDOG_LIMIT p.
Proof.
  intros Hin Hok H0 Hlive.
  assert (forall k, rst_n (inp k) = true) as Hr by (intros k; apply Hin).
  assert (forall n, watchdog_counter (run p inp n s0) < WATCHDOG_LIMIT p) as Hcnt.
  { intros n. destruct Hp as [_ Hl].
    destruct (N.lt_ge_cases n (Z.to_N (WATCHDOG_LIMIT p))) as [Hlt | Hge].
    - pose proof (counter_from_start inp s0 n H0). lia.
    - destruct (Hlive n Hge) as (k & Hk & Ht).
      pose proof (counter_since_toggle inp s0 k (n - N.succ k) Hr H0 Ht) as Hc.
      replace (N.succ k + (n - N.succ k))%N with n in Hc by lia. lia. }
  intros n. split; [| split; [| apply Hcnt]].
  - induction n as [| n IH] using N.peano_ind; [now rewrite run_0 |].
    rewrite run_succ, tick_state, IH by apply Hr. unfold ok_next.
    destruct (Hin n) as [_ Htemp]. specialize (Hcnt n).
    destruct (Z.gtb_spec (temp_sensor_raw (inp n)) (TEMP_CRITICAL_LIMIT p)); [lia |].
    destruct (Z.geb_spec (watchdog_counter (run p inp n s0)) (WATCHDOG_LIMIT p));
      [lia | reflexivity].
  - assert (forall m, current_state (run p inp m s0) = STATE_OK /\
                      power_cut_trigger (run p inp m s0) = power_cut_trigger s0) as H.
    { induction m as [| m [IHs IHp]] using N.peano_ind; [now rewrite run_0 |].
      rewrite run_succ, tick_state, tick_power_cut, IHs by apply Hr.
      split; [| exact IHp]. unfold ok_next.
      destruct (Hin m) as [_ Htemp]. specialize (Hcnt m).
      destruct (Z.gtb_spec (temp_sensor_raw (inp m)) (TEMP_CRITICAL_LIMIT p)); [lia |].
      destruct (Z.geb_spec (watchdog_counter (run p inp m s0)) (WATCHDOG_LIMIT p));
        [lia | reflexivity]. }
    apply H.
Qed.

End ScramMore.

Section ScramMoreInstances.

Import Scram ScramTrace.

Lemma scram_outputs_follow_state_witness :
  reachable default_params (tick default_params (idle_input 250) reset_regs) /\
  current_state (tick default_params (idle_input 250) reset_regs) <> STATE_WARNING.
Proof.
  assert (reachable default_params (tick default_params (idle_input 250) reset_regs))
    as H by (constructor; constructor).
  split; [exact H |].
  exact (proj1 (scram_outputs_follow_state default_params _ H)).
Defined.

Lemma over_temperature_latches_witness :
  (rst_n (idle_input 250) = true /\
   current_state reset_regs = STATE_OK /\
   temp_sensor_raw (idle_input 250) > TEMP_CRITICAL_LIMIT default_params /\
   (forall k : N, rst_n (idle_input 0) = true) /\ (1 <= 1)%N) /\
  current_state (tick default_params (idle_input 250) reset_regs) = STATE_SCRAM /\
  power_cut_trigger
    (run default_params (fun _ => idle_input 0) 1
       (tick default_params (idle_input 250) reset_regs)) = true.
Proof.
  assert (rst_n (idle_input 250) = true) as H1 by reflexivity.
  assert (current_state reset_regs = STATE_OK) as H2 by reflexivity.
  assert (temp_sensor_raw (idle_input 250) > TEMP_CRITICAL_LIMIT default_params)
    as H3 by reflexivity.
  assert (forall k : N, rst_n (idle_input 0) = true) as H4 by reflexivity.
  assert (1 <= 1)%N as H5 by discriminate.
  split; [repeat split; assumption |].
  destruct (over_temperature_latches default_params (idle_input 250) reset_regs
              (fun _ => idle_input 0) 1 H1 H2 H3 H4 H5) as (Ha & _ & _ & Hb).
  split; [exact Ha | exact Hb].
Defined.

Lemma scram_is_irreversible_witness :
  let s := tick default_params (idle_input 250) reset_regs in
  let hb := {| rst_n := true; heartbeat_signal := true; temp_sensor_raw := 0 |} in
  (current_state s = STATE_SCRAM \/ current_state s = STATE_DEAD) /\
  current_state (run default_params (fun _ => hb) 3 s) = STATE_DEAD /\
  power_cut_trigger (run default_params (fun _ => hb) 3 s) = true.
Proof.
  intros s hb.
  assert (current_state s = STATE_SCRAM \/ current_state s = STATE_DEAD) as H
    by (left; reflexivity).
  split; [exact H |].
  apply (proj1 (scram_is_irreversible default_params (fun _ => hb) s 3 hb H));
    [reflexivity | discriminate].
Defined.

Lemma alternating_lively :
  lively (Z.to_N (WATCHDOG_LIMIT default_params))
         (heartbeat_prev reset_regs) alternating_input.
Proof.
  intros n Hn. exists (N.pred n).
  change (Z.to_N (WATCHDOG_LIMIT default_params)) with 300000000%N in *.
  split; [lia |].
  unfold toggle_at, alternating_input. cbn [heartbeat_signal].
  destruct (N.eqb_spec (N.pred n) 0) as [-> | Hne]; [reflexivity |].
  rewrite (N.even_pred (N.pred n)) by exact Hne. rewrite <- N.negb_even.
  now rewrite Bool.eqb_negb2.
Qed.

Lemma heartbeat_in_time_keeps_ok_witness :
  (params_ok default_params /\
   (forall k, rst_n (alternating_input k) = true /\
              temp_sensor_raw (alternating_input k)
                <= TEMP_CRITICAL_LIMIT default_params) /\
   current_state reset_regs = STATE_OK /\
   watchdog_counter reset_regs = 0 /\
   lively (Z.to_N (WATCHDOG_LIMIT default_params))
          (heartbeat_prev reset_regs) alternating_input) /\
  current_state (run default_params alternating_input 1000000000 reset_regs)
    = STATE_OK.
Proof.
  assert (forall k, rst_n (alternating_input k) = true /\
                    temp_sensor_raw (alternating_input k)
                      <= TEMP_CRITICAL_LIMIT default_params) as H1
    by (intros k; split; [reflexivity | discriminate]).
  split.
  - split; [exact default_params_ok |]. split; [exact H1 |].
    split; [reflexivity |]. split; [reflexivity | exact alternating_lively].
  - exact (proj1 (heartbeat_in_time_keeps_ok default_params default_params_ok
                    alternating_input reset_regs H1 eq_refl eq_refl
                    alternating_lively 1000000000%N)).
Defined.

End ScramMoreInstances.

(* ===================================================================== *)
(** * Further properties of the kernel driver *)
(* ===================================================================== *)

Section DriverMore.

Import Driver DriverResources.

(** X12: [hocs_driver_init] never leaks and never destroys out of order:
    when it returns -1 every object created so far has been destroyed,
    newest first; when it returns 0 the region, the class, the device
    node and the character device are all held and nothing was
    destroyed; [hocs_driver_exit] after a successful init destroys all
    four, newest first. *)
Theorem hocs_driver_init_unwinds e d :
  (fst (hocs_driver_init e d) = 0 \/ fst (hocs_driver_init e d) = -1) /\
  replay e (snd (hocs_driver_init e d)) []
  = Some (if fst (hocs_driver_init e d) =? 0
          then [CharDev; DevNode; DevClass; ChrdevRegion] else []) /\
  (fst (hocs_driver_init e d) = 0 ->
   replay e (snd (hocs_driver_init e d) ++ snd (hocs_driver_exit d)) [] = Some []).
Proof.
  unfold hocs_driver_init, hocs_driver_exit, bind, kcall, ret.
  destruct (alloc_chrdev_region_ret e <? 0) eqn:E1.
  { cbn. rewrite E1. repeat split; try (now right); discriminate. }
  destruct (class_create_ret e =? 0) eqn:E2.
  { cbn. rewrite E1, E2. repeat split; try (now right); discriminate. }
  destruct (device_create_ret e =? 0) eqn:E3.
  { cbn. rewrite E1, E2, E3. repeat split; try (now right); discriminate. }
  destruct (cdev_add_ret e =? -1) eqn:E4.
  { cbn. rewrite E1, E2, E3, E4. repeat split; try (now right); discriminate. }
  cbn. rewrite E1, E2, E3, E4. cbn. repeat split. now left.
Qed.

Lemma land_one_odd x : (Z.land (wrap32 x) 1 =? 0) = negb (Z.odd x).
Proof.
  change 1 with (Z.ones 1) at 1. rewrite Z.land_ones by lia.
  unfold wrap32. rewrite Z.mod_mod_divide by (exists (2 ^ 31); reflexivity).
  change (2 ^ 1) with 2. rewrite Zmod_odd.
  destruct (Z.odd x); reflexivity.
Qed.

(** X13: the interrupt handler reads offset 0x08 once and looks at bit 0
    of the word only: when the bit is set it writes 0x01 back to 0x08
    and returns IRQ_HANDLED; when the bit is clear it writes nothing and
    returns IRQ_NONE, whatever the other bits are. *)
Theorem irq_handler_acks_on_bit0 d :
  hocs_irq_handler d =
    (if Z.odd (d REG_IRQ_ACK)
     then (IRQ_HANDLED,
           [Ioread32 REG_IRQ_ACK; KCall printk; Iowrite32 1 REG_IRQ_ACK])
     else (IRQ_NONE, [Ioread32 REG_IRQ_ACK])) /\
  (fst (hocs_irq_handler d) = IRQ_HANDLED <-> Z.testbit (d REG_IRQ_ACK) 0 = true) /\
  (Z.testbit (d REG_IRQ_ACK) 0 = false ->
   written_offsets (snd (hocs_irq_handler d)) = []).
Proof.
  rewrite hocs_irq_handler_run, land_one_odd, Bool.negb_involutive.
  rewrite Z.bit0_odd.
  destruct (Z.odd (d REG_IRQ_ACK)); cbn; repeat split; try discriminate; auto.
Qed.

(** X14: when fewer than [len] user bytes are readable, [hocs_write]
    returns -EFAULT and touches no register. *)
Theorem hocs_write_fault m cmd_addr buf len d :
  Z.of_nat (length buf) < len ->
  fst (fst (hocs_write m cmd_addr buf len d)) = - EFAULT /\
  snd (hocs_write m cmd_addr buf len d) = [].
Proof.
  intros Hlen. unfold hocs_write, copy_from_user.
  destruct (Z.ltb_spec sizeof_cmd_reg len) as [Hbig | _].
  - destruct (Z.eqb_spec len 0) as [E | _]; [lia |]. split; reflexivity.
  - destruct (Nat.leb_spec (Z.to_nat len) (length buf)) as [Hle | _]; [lia |].
    destruct (Z.eqb_spec (len - Z.of_nat (length buf)) 0) as [E | _]; [lia |].
    split; reflexivity.
Qed.

Lemma hocs_write_fault_witness :
  Z.of_nat (length [Byte.x01; Byte.x02]) < 4 /\
  fst (fst (hocs_write (fun _ => Byte.x00) 1000 [Byte.x01; Byte.x02] 4
              (fun _ => 0))) = -14.
Proof.
  assert (Z.of_nat (length [Byte.x01; Byte.x02]) < 4) as H by reflexivity.
  split; [exact H |].
  exact (proj1 (hocs_write_fault (fun _ => Byte.x00) 1000
                  [Byte.x01; Byte.x02] 4 (fun _ => 0) H)).
Defined.

(** X15: a write of fewer than four bytes fills only the low [len] bytes
    of [cmd_reg]; the remaining bytes of the word sent to CONTROL are
    whatever kernel memory held at [cmd_reg] before the call.  With
    [len = 0] the whole word is such stale memory. *)
Theorem hocs_write_short_sends_stale_bytes m cmd_addr buf len d :
  0 <= len < 4 ->
  len <= Z.of_nat (length buf) ->
  snd (hocs_write m cmd_addr buf len d)
  = [Iowrite32
       (le_combine
          (map (fun k => if k <? len then nth (Z.to_nat k) buf Byte.x00
                         else m (cmd_addr + k)) [0; 1; 2; 3]))
       REG_CONTROL;
     KCall printk] /\
  fst (fst (hocs_write m cmd_addr buf len d)) = len /\
  (len = 0 ->
   snd (hocs_write m cmd_addr buf len d)
   = [Iowrite32 (le_combine (load_bytes m cmd_addr 4)) REG_CONTROL;
      KCall printk]).
Proof.
  intros Hlen Hbuf.
  destruct (copy_from_user_readable m cmd_addr sizeof_cmd_reg buf len
              ltac:(lia) ltac:(unfold sizeof_cmd_reg; lia)) as [Hcopy Hn].
  assert (forall k, 0 <= k < 4 ->
            store_bytes m cmd_addr (firstn (Z.to_nat len) buf) (cmd_addr + k)
            = if k <? len then nth (Z.to_nat k) buf Byte.x00
              else m (cmd_addr + k)) as Hbyte.
  { intros k Hk. destruct (Z.ltb_spec k len).
    - rewrite store_bytes_inside by lia.
      replace (cmd_addr + k - cmd_addr) with k by lia.
      rewrite nth_firstn.
      destruct (Nat.ltb_spec (Z.to_nat k) (Z.to_nat len)); [reflexivity | lia].
    - apply store_bytes_outside. lia. }
  assert (snd (hocs_write m cmd_addr buf len d)
          = [Iowrite32
               (le_combine
                  (map (fun k => if k <? len then nth (Z.to_nat k) buf Byte.x00
                                 else m (cmd_addr + k)) [0; 1; 2; 3]))
               REG_CONTROL;
             KCall printk]) as Htrace.
  { unfold hocs_write. rewrite Hcopy. cbn [Z.eqb negb].
    unfold bind, iowrite32, kcall, ret. cbn [snd app].
    rewrite load_four. cbn [map].
    rewrite !Hbyte by lia. reflexivity. }
  split; [exact Htrace |]. split.
  - unfold hocs_write. rewrite Hcopy. cbn. unfold to_ssize.
    rewrite wrap64_small by lia.
    destruct (Z.ltb_spec len (2 ^ 63)); [reflexivity | lia].
  - intros ->. rewrite Htrace. reflexivity.
Qed.

Lemma hocs_write_short_sends_stale_bytes_witness :
  let m : kmem := fun _ => Byte.xaa in
  (0 <= 1 < 4 /\ 1 <= Z.of_nat (length [Byte.x01])) /\
  snd (hocs_write m 1000 [Byte.x01] 1 (fun _ => 0))
  = [Iowrite32 0xAAAAAA01 REG_CONTROL; KCall printk].
Proof.
  intros m.
  assert (0 <= 1 < 4) as H1 by (split; [discriminate | reflexivity]).
  assert (1 <= Z.of_nat (length [Byte.x01])) as H2 by discriminate.
  split; [split; assumption |].
  exact (proj1 (hocs_write_short_sends_stale_bytes m 1000 [Byte.x01] 1
                  (fun _ => 0) H1 H2)).
Defined.

End DriverMore.

(* ===================================================================== *)
(** * The CuO array controller *)
(* ===================================================================== *)

Section CuoFacts.

Import Cuo.

Lemma cuo_run_S inp n s : run inp (S n) s = tick (inp n) (run inp n s).
Proof. reflexivity. Qed.

(** While waiting: the counter has counted [j] edges, nothing else
    moves. *)
Lemma cuo_wait_phase inp s j :
  (forall k, (k < j)%nat -> rst_n (inp k) = true) ->
  current_state s = STATE_WAIT -> delay_counter s = 0 ->
  (j <= 21)%nat ->
  run inp j s =
    {| current_state := STATE_WAIT; delay_counter := Z.of_nat j;
       dac_out := dac_out s; result_out := result_out s; done := done s |}.
Proof.
  intros Hr Hcs Hdc. induction j as [| j IH]; intros Hj.
  - cbn. destruct s; cbn in *. now subst.
  - rewrite cuo_run_S, IH by (try lia; intros k Hk; apply Hr; lia).
    unfold tick. cbn [current_state delay_counter dac_out result_out done].
    rewrite (Hr j) by lia. cbn [negb].
    unfold next_state, STATE_WAIT, STATE_IDLE, STATE_LOAD, STATE_READ, STATE_DONE.
    cbn [Z.eqb Pos.eqb].
    destruct (Z.gtb_spec (Z.of_nat j) 20); [lia |].
    f_equal. unfold wrap8. rewrite Z.mod_small; lia.
Qed.

Lemma cuo_run_add inp a b s :
  run inp (a + b) s = run (fun k => inp (a + k)%nat) b (run inp a s).
Proof.
  induction b as [| b IH]; [now rewrite Nat.add_0_r |].
  rewrite Nat.add_succ_r. cbn [run]. now rewrite IH.
Qed.

(** The first two edges of a conversion: IDLE to LOAD to WAIT. *)
Lemma cuo_load_phase inp s0 :
  current_state s0 = STATE_IDLE ->
  rst_n (inp 0%nat) = true -> rst_n (inp 1%nat) = true ->
  start (inp 0%nat) = true ->
  run inp 2 s0 =
    {| current_state := STATE_WAIT; delay_counter := 0;
       dac_out := data_in (inp 1%nat); result_out := result_out s0;
       done := false |}.
Proof.
  intros Hcs Hr0 Hr1 Hst. cbn [run]. unfold tick at 2.
  rewrite Hcs, Hr0, Hst. unfold tick.
  cbn [current_state delay_counter dac_out result_out done].
  rewrite Hr1. reflexivity.
Qed.

(** The state after [2 + j] edges of a conversion, [j <= 21]. *)
Lemma cuo_waiting inp s0 j :
  current_state s0 = STATE_IDLE ->
  (forall k, (k < 26)%nat -> rst_n (inp k) = true) ->
  start (inp 0%nat) = true ->
  (j <= 21)%nat ->
  run inp (2 + j) s0 =
    {| current_state := STATE_WAIT; delay_counter := Z.of_nat j;
       dac_out := data_in (inp 1%nat); result_out := result_out s0;
       done := false |}.
Proof.
  intros Hcs Hr Hst Hj.
  rewrite cuo_run_add, (cuo_load_phase inp s0 Hcs) by (try apply Hr; try lia; exact Hst).
  rewrite cuo_wait_phase; try reflexivity; try lia.
  intros k Hk. apply Hr. lia.
Qed.

(** X16: a conversion takes 26 clock edges.  From IDLE, with [start]
    high at edge 0 and no reset, the controller is back in IDLE after
    edge 25 with [done] set; [dac_out] holds the [data_in] sampled at
    edge 1 (not at the start edge) and [result_out] the [adc_in] sampled
    at edge 24.  In between ([start] is not looked at) it is busy with
    [done] low; it spends 22 edges in WAIT. *)
Theorem cuo_conversion_takes_26_edges inp s0 :
  current_state s0 = STATE_IDLE ->
  (forall k, (k < 26)%nat -> rst_n (inp k) = true) ->
  start (inp 0%nat) = true ->
  run inp 26 s0 =
    {| current_state := STATE_IDLE; delay_counter := 0;
       dac_out := data_in (inp 1%nat); result_out := adc_in (inp 24%nat);
       done := true |} /\
  (forall n, (2 <= n <= 25)%nat ->
     done (run inp n s0) = false /\ current_state (run inp n s0) <> STATE_IDLE) /\
  (forall n, (2 <= n <= 23)%nat -> current_state (run inp n s0) = STATE_WAIT) /\
  current_state (run inp 1 s0) = STATE_LOAD /\
  current_state (run inp 24 s0) = STATE_READ /\
  current_state (run inp 25 s0) = STATE_DONE.
Proof.
  intros Hcs Hr Hst.
  pose proof (cuo_waiting inp s0 21 Hcs Hr Hst ltac:(lia)) as H23.
  change (2 + 21)%nat with 23%nat in H23.
  assert (run inp 24 s0 =
          {| current_state := STATE_READ; delay_counter := 22;
             dac_out := data_in (inp 1%nat); result_out := result_out s0;
             done := false |}) as H24.
  { rewrite (cuo_run_S inp 23 s0), H23. unfold tick.
    cbn [current_state delay_counter dac_out result_out done].
    rewrite (Hr 23%nat) by lia. reflexivity. }
  assert (run inp 25 s0 =
          {| current_state := STATE_DONE; delay_counter := 0;
             dac_out := data_in (inp 1%nat); result_out := adc_in (inp 24%nat);
             done := false |}) as H25.
  { rewrite (cuo_run_S inp 24 s0), H24. unfold tick.
    cbn [current_state delay_counter dac_out result_out done].
    rewrite (Hr 24%nat) by lia. reflexivity. }
  assert (forall n, (2 <= n <= 23)%nat ->
            current_state (run inp n s0) = STATE_WAIT /\
            done (run inp n s0) = false) as Hwait.
  { intros n Hn. replace n with (2 + (n - 2))%nat by lia.
    rewrite cuo_waiting by (try assumption; lia). split; reflexivity. }
  split; [| split; [| split; [| split; [| split]]]].
  - rewrite (cuo_run_S inp 25 s0), H25. unfold tick.
    cbn [current_state delay_counter dac_out result_out done].
    rewrite (Hr 25%nat) by lia. reflexivity.
  - intros n Hn.
    destruct (Nat.le_gt_cases n 23) as [Hle | Hgt].
    + destruct (Hwait n ltac:(lia)) as [Hc Hd]. rewrite Hc, Hd.
      split; [reflexivity | discriminate].
    + assert (n = 24 \/ n = 25)%nat as [-> | ->] by lia.
      * rewrite H24. split; [reflexivity | discriminate].
      * rewrite H25. split; [reflexivity | discriminate].
  - intros n Hn. apply Hwait, Hn.
  - rewrite (cuo_run_S inp 0 s0). cbn [run]. unfold tick.
    rewrite Hcs, (Hr 0%nat), Hst by lia. reflexivity.
  - rewrite H24. reflexivity.
  - rewrite H25. reflexivity.
Qed.

Lemma cuo_conversion_takes_26_edges_witness :
  let inp := fun k : nat =>
    {| rst_n := true; start := Nat.eqb k 0;
       data_in := Z.of_nat k; adc_in := 100 + Z.of_nat k |} in
  let s0 := {| current_state := STATE_IDLE; delay_counter := 0;
               dac_out := 0; result_out := 0; done := false |} in
  (current_state s0 = STATE_IDLE /\
   (forall k, (k < 26)%nat -> rst_n (inp k) = true) /\
   start (inp 0%nat) = true) /\
  dac_out (run inp 26 s0) = 1 /\ result_out (run inp 26 s0) = 124 /\
  done (run inp 26 s0) = true.
Proof.
  intros inp s0.
  assert (current_state s0 = STATE_IDLE) as H1 by reflexivity.
  assert (forall k, (k < 26)%nat -> rst_n (inp k) = true) as H2 by reflexivity.
  assert (start (inp 0%nat) = true) as H3 by reflexivity.
  split; [repeat split; assumption |].
  destruct (cuo_conversion_takes_26_edges inp s0 H1 H2 H3) as (H & _).
  rewrite H. repeat split.
Defined.

(** What a reset establishes and every later edge keeps. *)
Lemma cuo_reachable_inv s :
  reachable s ->
  0 <= current_state s <= 4 /\
  0 <= delay_counter s <= 22 /\
  (current_state s = STATE_WAIT -> delay_counter s <= 21) /\
  (current_state s <> STATE_WAIT -> current_state s <> STATE_READ ->
   delay_counter s = 0).
Proof.
  assert (forall i s, rst_n i = false ->
            current_state (tick i s) = 0 /\ delay_counter (tick i s) = 0) as Hreset.
  { intros i s0 Hr. unfold tick. cbn. rewrite Hr. split; reflexivity. }
  induction 1 as [i s Hr | i s _ IH].
  - destruct (Hreset i s Hr) as [-> ->].
    unfold STATE_WAIT, STATE_READ. repeat split; try lia.
  - destruct (rst_n i) eqn:Hr.
    2: { destruct (Hreset i s Hr) as [-> ->].
         unfold STATE_WAIT, STATE_READ. repeat split; try lia. }
    destruct IH as (Hcs & Hdc & Hw & Hz).
    unfold tick. cbn [current_state delay_counter]. rewrite Hr. cbn [negb].
    unfold next_state, STATE_IDLE, STATE_LOAD, STATE_WAIT, STATE_READ, STATE_DONE in *.
    assert (current_state s = 0 \/ current_state s = 1 \/ current_state s = 2 \/
            current_state s = 3 \/ current_state s = 4) as Hcase by lia.
    destruct Hcase as [E | [E | [E | [E | E]]]]; rewrite E in *; cbn [Z.eqb Pos.eqb].
    + destruct (start i); repeat split; try lia.
    + repeat split; try lia.
    + specialize (Hw eq_refl). unfold wrap8.
      rewrite Z.mod_small by lia.
      destruct (Z.gtb_spec (delay_counter s) 20); repeat split; try lia.
    + repeat split; try lia.
    + repeat split; try lia.
Qed.

(** X17: after a reset the state register only ever holds one of the
    five named states, the delay counter never exceeds 22 (so its eight
    bits never wrap), and it is 0 outside WAIT and READ. *)
Theorem cuo_state_and_counter_bounded s :
  reachable s ->
  (current_state s = STATE_IDLE \/ current_state s = STATE_LOAD \/
   current_state s = STATE_WAIT \/ current_state s = STATE_READ \/
   current_state s = STATE_DONE) /\
  0 <= delay_counter s <= 22 /\
  (current_state s <> STATE_WAIT -> current_state s <> STATE_READ ->
   delay_counter s = 0).
Proof.
  intros H. destruct (cuo_reachable_inv s H) as (Hcs & Hdc & _ & Hz).
  split; [| split; assumption].
  unfold STATE_IDLE, STATE_LOAD, STATE_WAIT, STATE_READ, STATE_DONE. lia.
Qed.

Lemma cuo_state_and_counter_bounded_witness :
  let i0 := {| rst_n := false; start := true; data_in := 5; adc_in := 9 |} in
  let i1 := {| rst_n := true; start := true; data_in := 5; adc_in := 9 |} in
  let s := {| current_state := 7; delay_counter := 200;
              dac_out := 0; result_out := 0; done := true |} in
  reachable (tick i1 (tick i0 s)) /\
  current_state (tick i1 (tick i0 s)) = STATE_LOAD /\
  0 <= delay_counter (tick i1 (tick i0 s)) <= 22.
Proof.
  intros i0 i1 s.
  assert (reachable (tick i1 (tick i0 s))) as H
    by (apply reach_tick, reach_reset; reflexivity).
  split; [exact H |]. split; [reflexivity |].
  exact (proj1 (proj2 (cuo_state_and_counter_bounded _ H))).
Defined.

(** X18: an idle controller with [start] low and no reset does not move:
    state, counter, [dac_out], [result_out] and [done] (hence
    [m_axis_tvalid] and [m_axis_tdata]) keep their values for any number
    of edges; in particular [done] stays high after a conversion until
    the next one is loaded. *)
Theorem cuo_idle_holds inp s n :
  current_state s = STATE_IDLE -> delay_counter s = 0 ->
  (forall k, (k < n)%nat -> rst_n (inp k) = true /\ start (inp k) = false) ->
  run inp n s = s /\
  m_axis_tvalid (run inp n s) = done s /\
  m_axis_tdata (run inp n s) = result_out s mod 2 ^ 12.
Proof.
  intros Hcs Hdc Hin.
  assert (run inp n s = s) as H.
  { induction n as [| n IH]; [reflexivity |].
    cbn [run]. rewrite IH by (intros k Hk; apply Hin; lia).
    destruct (Hin n ltac:(lia)) as [Hr Hs].
    unfold tick. rewrite Hcs, Hdc, Hr, Hs. cbn.
    destruct s; cbn in *. now subst. }
  rewrite H. repeat split.
Qed.

Lemma cuo_idle_holds_witness :
  let inp := fun _ : nat =>
    {| rst_n := true; start := false; data_in := 3; adc_in := 4 |} in
  let s := {| current_state := STATE_IDLE; delay_counter := 0;
              dac_out := 17; result_out := 4100; done := true |} in
  (current_state s = STATE_IDLE /\ delay_counter s = 0 /\
   (forall k, (k < 5)%nat -> rst_n (inp k) = true /\ start (inp k) = false)) /\
  run inp 5 s = s /\ m_axis_tdata (run inp 5 s) = 4.
Proof.
  intros inp s.
  assert (current_state s = STATE_IDLE) as H1 by reflexivity.
  assert (delay_counter s = 0) as H2 by reflexivity.
  assert (forall k, (k < 5)%nat -> rst_n (inp k) = true /\ start (inp k) = false)
    as H3 by (intros k _; split; reflexivity).
  split; [repeat split; try assumption; apply H3; assumption |].
  destruct (cuo_idle_holds inp s 5 H1 H2 H3) as (Ha & _ & Hb).
  split; [exact Ha | exact Hb].
Defined.

End CuoFacts.

(* ===================================================================== *)
(** * Polynomial helpers of the security module *)
(* ===================================================================== *)

Section LatticeFacts.

Import Lattice.

Lemma to_int16_small z : - 2 ^ 15 <= z < 2 ^ 15 -> to_int16 z = z.
Proof. intros H. unfold to_int16. rewrite Z.mod_small; lia. Qed.

Lemma to_int32_small z : - 2 ^ 31 <= z < 2 ^ 31 -> to_int32 z = z.
Proof. intros H. unfold to_int32. rewrite Z.mod_small; lia. Qed.

Lemma rem_modulus_bound z : - MODULUS < Z.rem z MODULUS < MODULUS.
Proof.
  unfold MODULUS.
  pose proof (Z.rem_bound_abs z 3329 ltac:(lia)). lia.
Qed.

Lemma ntt_coeff_value c :
  is_int16 c -> ntt_coeff c = Z.rem (c * 17) MODULUS.
Proof.
  unfold is_int16. intros Hc. unfold ntt_coeff.
  rewrite to_int32_small by lia.
  pose proof (rem_modulus_bound (c * 17)). unfold MODULUS in *.
  apply to_int16_small. lia.
Qed.

(** X19: [ntt_transform] scales every coefficient by 17 modulo 3329 on
    its own (no coefficient depends on another); the results are again
    16-bit values strictly between -3329 and 3329, with the sign of the
    input (so negative inputs are not brought to [0, 3329)); on
    coefficients already in [0, 3329) the step is undone by multiplying
    by 1175 modulo 3329. *)
Theorem ntt_transform_scales_pointwise p :
  well_formed p ->
  well_formed (ntt_transform p) /\
  (forall i c, nth_error p i = Some c ->
     nth_error (ntt_transform p) i = Some (Z.rem (c * 17) MODULUS) /\
     - MODULUS < Z.rem (c * 17) MODULUS < MODULUS /\
     (0 <= c -> 0 <= Z.rem (c * 17) MODULUS) /\
     (c <= 0 -> Z.rem (c * 17) MODULUS <= 0) /\
     (0 <= c < MODULUS ->
      (Z.rem (c * 17) MODULUS * 1175) mod MODULUS = c)).
Proof.
  intros [Hlen Hp]. split; [split; [unfold ntt_transform; now rewrite length_map |] |].
  2: { intros i c Hi.
    assert (is_int16 c) as Hc
      by (rewrite Forall_forall in Hp; apply Hp; eapply nth_error_In; eauto).
    split; [| split; [| split; [| split]]].
    + unfold ntt_transform. rewrite nth_error_map, Hi. cbn.
      now rewrite ntt_coeff_value.
    + apply rem_modulus_bound.
    + intros H0. apply Z.rem_nonneg; unfold MODULUS; lia.
    + intros H0. apply Z.rem_nonpos; unfold MODULUS; lia.
    + intros Hr. unfold MODULUS in *.
      rewrite Z.rem_mod_nonneg by lia.
      rewrite Z.mul_mod_idemp_l by lia.
      replace (c * 17 * 1175) with (c + c * 6 * 3329) by lia.
      rewrite Z.mod_add by lia. apply Z.mod_small. lia. }
  - unfold ntt_transform. apply Forall_map.
    eapply Forall_impl; [| exact Hp]. intros c Hc.
    rewrite ntt_coeff_value by exact Hc.
    pose proof (rem_modulus_bound (c * 17)). unfold is_int16, MODULUS in *. lia.
Qed.

Lemma int16_padded l :
  Forall is_int16 l -> Forall is_int16 (l ++ repeat 0 (POLY_DEGREE - length l)).
Proof.
  intros H. apply Forall_app. split; [exact H |].
  apply Forall_forall. intros x Hx. apply repeat_spec in Hx. subst.
  split; [discriminate | reflexivity].
Qed.

Lemma ntt_transform_scales_pointwise_witness :
  let p := [1; -1; 200; 3328] ++ repeat 0 252 in
  well_formed p /\
  nth_error (ntt_transform p) 2 = Some 71 /\
  nth_error (ntt_transform p) 1 = Some (-17).
Proof.
  intros p.
  assert (well_formed p) as H.
  { split; [reflexivity |].
    apply (int16_padded [1; -1; 200; 3328]). repeat constructor; discriminate. }
  split; [exact H |].
  destruct (ntt_transform_scales_pointwise p H) as (_ & Hc).
  split.
  - exact (proj1 (Hc 2%nat 200 eq_refl)).
  - exact (proj1 (Hc 1%nat (-1) eq_refl)).
Defined.

Lemma add_coeff_value a b :
  is_int16 a -> is_int16 b -> add_coeff a b = Z.rem (a + b) MODULUS.
Proof.
  unfold is_int16. intros Ha Hb. unfold add_coeff.
  rewrite to_int32_small by lia.
  pose proof (rem_modulus_bound (a + b)). unfold MODULUS in *.
  apply to_int16_small. lia.
Qed.

Lemma poly_add_nth a : forall b i x y,
  nth_error a i = Some x -> nth_error b i = Some y ->
  nth_error (poly_add a b) i = Some (add_coeff x y).
Proof.
  induction a as [| x0 a IH]; intros b i x y Ha Hb.
  - destruct i; discriminate.
  - destruct b as [| y0 b]; [destruct i; discriminate |].
    destruct i as [| i]; cbn in *.
    + congruence.
    + now apply IH.
Qed.

Lemma poly_add_length a : forall b,
  length (poly_add a b) = Nat.min (length a) (length b).
Proof.
  induction a as [| x a IH]; intros [| y b]; cbn; try reflexivity.
  now rewrite IH.
Qed.

Lemma poly_add_comm a : forall b, poly_add a b = poly_add b a.
Proof.
  induction a as [| x a IH]; intros [| y b]; cbn; try reflexivity.
  rewrite IH. unfold add_coeff. now rewrite (Z.add_comm x y).
Qed.

(** X20: for two polynomials with 16-bit coefficients, [poly_add] gives
    at every index the remainder of the sum modulo 3329, truncated
    towards zero: congruent to the sum, strictly between -3329 and 3329,
    not negative when the sum is not negative and not positive when the
    sum is negative (so a negative sum is not brought to [0, 3329)); the
    result does not depend on the order of the operands. *)
Theorem poly_add_coefficients a b :
  well_formed a -> well_formed b ->
  length (poly_add a b) = POLY_DEGREE /\
  poly_add a b = poly_add b a /\
  (forall i x y, nth_error a i = Some x -> nth_error b i = Some y ->
     exists r, nth_error (poly_add a b) i = Some r /\
       r = Z.rem (x + y) MODULUS /\
       r mod MODULUS = (x + y) mod MODULUS /\
       - MODULUS < r < MODULUS /\
       (0 <= x + y -> 0 <= r) /\
       (x + y < 0 -> r <= 0)).
Proof.
  intros [Hla Ha] [Hlb Hb]. split; [| split].
  - rewrite poly_add_length, Hla, Hlb. reflexivity.
  - apply poly_add_comm.
  - intros i x y Hx Hy.
    assert (is_int16 x) as Hx16
      by (rewrite Forall_forall in Ha; apply Ha; eapply nth_error_In; eauto).
    assert (is_int16 y) as Hy16
      by (rewrite Forall_forall in Hb; apply Hb; eapply nth_error_In; eauto).
    exists (Z.rem (x + y) MODULUS).
    split; [| split; [reflexivity | split; [| split; [| split]]]].
    + rewrite (poly_add_nth a b i x y Hx Hy). now rewrite add_coeff_value.
    + unfold MODULUS.
      rewrite (Z.rem_eq (x + y) 3329) by lia.
      replace (x + y - 3329 * ((x + y) ÷ 3329))
        with (x + y + (- ((x + y) ÷ 3329)) * 3329) by lia.
      apply Z.mod_add. lia.
    + apply rem_modulus_bound.
    + intros H0. apply Z.rem_nonneg; unfold MODULUS; lia.
    + intros H0. apply Z.rem_nonpos; unfold MODULUS; lia.
Qed.

Lemma poly_add_coefficients_witness :
  let a := [3000; -5; 7] ++ repeat 0 253 in
  let b := [1000; -3; -7] ++ repeat 0 253 in
  (well_formed a /\ well_formed b) /\
  nth_error (poly_add a b) 0 = Some 671 /\
  nth_error (poly_add a b) 1 = Some (-8).
Proof.
  intros a b.
  assert (well_formed a) as H1.
  { split; [reflexivity |].
    apply (int16_padded [3000; -5; 7]). repeat constructor; discriminate. }
  assert (well_formed b) as H2.
  { split; [reflexivity |].
    apply (int16_padded [1000; -3; -7]). repeat constructor; discriminate. }
  split; [split; assumption |].
  destruct (poly_add_coefficients a b H1 H2) as (_ & _ & Hc).
  split.
  - destruct (Hc 0%nat 3000 1000 eq_refl eq_refl) as (r & Hr & -> & _). exact Hr.
  - destruct (Hc 1%nat (-5) (-3) eq_refl eq_refl) as (r & Hr & -> & _). exact Hr.
Defined.

End LatticeFacts.

(* ===================================================================== *)
(** * hex_dump *)
(* ===================================================================== *)

Section HexDumpFacts.

Import HexDump.

Lemma dump_from_length p : forall i,
  length (dump_from i p)
  = (3 * length p + ((i + length p) / 16 - i / 16))%nat.
Proof.
  induction p as [| b p IH]; intros i.
  - cbn. rewrite Nat.add_0_r. lia.
  - cbn [dump_from]. rewrite !length_app, IH. cbn [length print_byte].
    replace (i + S (length p))%nat with (i + 1 + length p)%nat by lia.
    assert ((i + 1) / 16 = i / 16 + (if ((i + 1) mod 16 =? 0) then 1 else 0))%nat
      as Hstep.
    { pose proof (Nat.div_mod_eq (i + 1) 16) as E1.
      pose proof (Nat.div_mod_eq i 16) as E0.
      pose proof (Nat.mod_upper_bound (i + 1) 16 ltac:(lia)) as B1.
      pose proof (Nat.mod_upper_bound i 16 ltac:(lia)) as B0.
      destruct (Nat.eqb_spec ((i + 1) mod 16) 0); lia. }
    assert ((i + 1) / 16 <= (i + 1 + length p) / 16)%nat
      by (apply Nat.Div0.div_le_mono; lia).
    destruct (Nat.eqb_spec ((i + 1) mod 16) 0); cbn [length]; lia.
Qed.

Lemma parse_print_byte b fuel rest :
  parse_dump (S (S fuel)) (print_byte b ++ rest)
  = match parse_dump fuel rest with
    | Some l => Some (N.to_nat (Byte.to_N b) :: l)
    | None => None
    end.
Proof. destruct b; reflexivity. Qed.

Lemma parse_newline fuel rest :
  parse_dump (S fuel) (newline :: rest) = parse_dump fuel rest.
Proof. reflexivity. Qed.

Lemma parse_dump_from p : forall i F tail,
  exists k,
    parse_dump (k + F) (dump_from i p ++ tail)
    = match parse_dump F tail with
      | Some l => Some (map (fun b => N.to_nat (Byte.to_N b)) p ++ l)
      | None => None
      end.
Proof.
  induction p as [| b p IH]; intros i F tail.
  - exists 0%nat. cbn. destruct (parse_dump F tail); reflexivity.
  - destruct (IH (i + 1)%nat F tail) as [k Hk].
    cbn [dump_from map]. rewrite <- !app_assoc.
    destruct ((i + 1) mod 16 =? 0)%nat.
    + exists (S (S (S k))). cbn [Nat.add app].
      rewrite parse_print_byte, parse_newline, Hk.
      destruct (parse_dump F tail); reflexivity.
    + exists (S (S k)). cbn [Nat.add app].
      rewrite parse_print_byte, Hk.
      destruct (parse_dump F tail); reflexivity.
Qed.

(** X21: [hex_dump] of [len] bytes writes [3*len + len/16 + 1]
    characters (two upper-case digits and a blank per byte, a line break
    after every sixteenth byte and one at the end; for no bytes, a lone
    line break), and reading the digits back gives exactly the bytes
    dumped, in order. *)
Theorem hex_dump_layout p :
  length (hex_dump p) = (3 * length p + length p / 16 + 1)%nat /\
  exists fuel,
    parse_dump fuel (hex_dump p)
    = Some (map (fun b => N.to_nat (Byte.to_N b)) p).
Proof.
  split.
  - unfold hex_dump. rewrite length_app, dump_from_length. cbn [length Nat.add].
    change (0 / 16)%nat with 0%nat. lia.
  - destruct (parse_dump_from p 0 2 [newline]) as [k Hk].
    exists (k + 2)%nat. unfold hex_dump. rewrite Hk. cbn.
    now rewrite app_nil_r.
Qed.

End HexDumpFacts.

(* ===================================================================== *)
(** * hocs_neon_accumulate *)
(* ===================================================================== *)

Section NeonFacts.

Import Neon.

Variable F : Type.
Variable fadd : F -> F -> F.

Lemma cleanup_spec n : forall dest src,
  (n <= length dest)%nat -> (n <= length src)%nat ->
  cleanup F fadd n dest src
  = add_all F fadd (firstn n dest) (firstn n src) ++ skipn n dest.
Proof.
  induction n as [| n IH]; intros dest src Hd Hs; [reflexivity |].
  destruct dest as [| d dr]; [cbn in Hd; lia |].
  destruct src as [| s sr]; [cbn in Hs; lia |].
  cbn in Hd, Hs. cbn [cleanup firstn skipn]. unfold add_all. cbn.
  f_equal. apply IH; lia.
Qed.

Lemma vector_loop_spec n : forall dest src,
  (n <= length dest)%nat -> (n <= length src)%nat ->
  vector_loop F fadd n dest src
  = add_all F fadd (firstn n dest) (firstn n src) ++ skipn n dest.
Proof.
  induction n as [n IH] using lt_wf_ind. intros dest src Hd Hs.
  destruct n as [| [| [| [| n]]]]; try (apply cleanup_spec; assumption).
  destruct dest as [| d0 [| d1 [| d2 [| d3 dr]]]]; try (cbn in Hd; lia).
  destruct src as [| s0 [| s1 [| s2 [| s3 sr]]]]; try (cbn in Hs; lia).
  cbn in Hd, Hs. cbn [vector_loop firstn skipn]. unfold add_all. cbn.
  do 4 f_equal. apply IH; lia.
Qed.

(** X22: on non-overlapping arrays holding at least [count] floats,
    [hocs_neon_accumulate] leaves [fadd dest[i] src[i]] in [dest[i]] for
    every [i < count] and does not touch the rest of [dest]: the
    four-lane loop followed by the scalar clean-up does what the plain
    element-by-element loop does, for every remainder of [count] modulo
    4; with [count <= 0] nothing is written. *)
Theorem neon_accumulate_elementwise dest src count :
  count <= Z.of_nat (length dest) ->
  count <= Z.of_nat (length src) ->
  hocs_neon_accumulate F fadd dest src count
  = add_all F fadd (firstn (Z.to_nat count) dest) (firstn (Z.to_nat count) src)
      ++ skipn (Z.to_nat count) dest /\
  length (hocs_neon_accumulate F fadd dest src count) = length dest /\
  (count <= 0 -> hocs_neon_accumulate F fadd dest src count = dest).
Proof.
  intros Hd Hs.
  assert (hocs_neon_accumulate F fadd dest src count
          = add_all F fadd (firstn (Z.to_nat count) dest)
                           (firstn (Z.to_nat count) src)
              ++ skipn (Z.to_nat count) dest) as H.
  { unfold hocs_neon_accumulate.
    destruct (Z.leb_spec count 0) as [Hle | Hgt].
    - replace (Z.to_nat count) with 0%nat by lia. reflexivity.
    - apply vector_loop_spec; lia. }
  split; [exact H |]. split.
  - rewrite H. unfold add_all.
    rewrite length_app, length_map, length_combine, !length_firstn, length_skipn.
    lia.
  - intros Hle. unfold hocs_neon_accumulate.
    destruct (Z.leb_spec count 0); [reflexivity | lia].
Qed.

End NeonFacts.

Section NeonInstances.

Import Neon.

(** Seven elements: one vector round and three scalar ones. *)
Lemma neon_accumulate_elementwise_witness :
  let dest := [1; 2; 3; 4; 5; 6; 7; 8; 9] in
  let src := [10; 20; 30; 40; 50; 60; 70; 80] in
  (7 <= Z.of_nat (length dest) /\ 7 <= Z.of_nat (length src)) /\
  hocs_neon_accumulate Z Z.add dest src 7 = [11; 22; 33; 44; 55; 66; 77; 8; 9].
Proof.
  intros dest src.
  assert (7 <= Z.of_nat (length dest)) as H1 by discriminate.
  assert (7 <= Z.of_nat (length src)) as H2 by discriminate.
  split; [split; assumption |].
  rewrite (proj1 (neon_accumulate_elementwise Z Z.add dest src 7 H1 H2)).
  reflexivity.
Defined.

End NeonInstances.
